(** * The outline store of [outliner.py]: a shallow embedding and its properties

    The Python module keeps one [OutlineModel]: a tree of [OutlineItem]
    objects, a dictionary [all_items] from URL to item object, and a set
    [updated_items] of recently touched URLs.  Items are Python objects
    and are shared by reference between the dictionary and the [children]
    lists, so the embedding has an explicit object store: an address is an
    index into [heap], and the dictionary and the child lists hold
    addresses.  Objects are never reclaimed in the model.

    [time.time()] is modelled by a clock [clock : nat -> Z]: the [n]-th
    reading of the process returns [clock n], and [ticks] counts the
    readings made so far.  Timestamps are integers (seconds); the only
    operations the program performs on them are comparison and the
    subtraction of the retention constant 3600. *)

From Stdlib Require Import ZArith Ascii String DecimalNat DecimalString.
From stdpp Require Import base gmap sets list strings.

(** ** Objects *)

Abbreviation addr := nat.

(** [class OutlineItem]: [url], [text], [children] (a list of object
    references) and [last_modified]. *)
Record OutlineItem : Type := mkItem {
  url : string;
  text : string;
  children : list addr;
  last_modified : Z
}.

(** [class OutlineModel], together with the object store it lives in and
    the number of clock readings taken so far. *)
Record OutlineModel : Type := mkModel {
  heap : list OutlineItem;
  root : addr;
  item_count : nat;
  all_items : gmap string addr;
  updated_items : gset string;
  ticks : nat
}.

Definition set_text (v : string) (it : OutlineItem) : OutlineItem :=
  mkItem (url it) v (children it) (last_modified it).
Definition set_children (v : list addr) (it : OutlineItem) : OutlineItem :=
  mkItem (url it) (text it) v (last_modified it).
Definition set_last_modified (v : Z) (it : OutlineItem) : OutlineItem :=
  mkItem (url it) (text it) (children it) v.

Definition with_heap (h : list OutlineItem) (m : OutlineModel) : OutlineModel :=
  mkModel h (root m) (item_count m) (all_items m) (updated_items m) (ticks m).
Definition with_item_count (n : nat) (m : OutlineModel) : OutlineModel :=
  mkModel (heap m) (root m) n (all_items m) (updated_items m) (ticks m).
Definition with_all_items (d : gmap string addr) (m : OutlineModel) : OutlineModel :=
  mkModel (heap m) (root m) (item_count m) d (updated_items m) (ticks m).
Definition with_updated_items (u : gset string) (m : OutlineModel) : OutlineModel :=
  mkModel (heap m) (root m) (item_count m) (all_items m) u (ticks m).
Definition with_ticks (n : nat) (m : OutlineModel) : OutlineModel :=
  mkModel (heap m) (root m) (item_count m) (all_items m) (updated_items m) n.

(** ** Outcomes of a call

    A call either returns a value and a new state, or stops with an
    exception.  [KeyError] and [RecursionError] are Python's: the second
    is raised when [delete_item] would call itself more deeply than the
    interpreter allows, and the calls that stop with it say nothing about
    the state they leave.  [Dangling] (an address outside the object
    store) is the model's own and is shown not to occur in the states the
    program can reach. *)
Inductive exn : Type := KeyError | RecursionError | Dangling.

Inductive outcome (A : Type) : Type :=
| Done (v : A) (m : OutlineModel)
| Raise (e : exn).
Arguments Done {A} v m.
Arguments Raise {A} e.

Definition M (A : Type) : Type := OutlineModel -> outcome A.

Definition ret {A} (v : A) : M A := fun m => Done v m.
Definition bind {A B} (c : M A) (k : A -> M B) : M B :=
  fun m => match c m with
           | Done v m' => k v m'
           | Raise e => Raise e
           end.
Definition raise {A} (e : exn) : M A := fun _ => Raise e.

Notation "'do' x <- c ; k" := (bind c (fun x => k))
  (at level 10, x name, c at level 100, k at level 200).
Notation "'exec' c ; k" := (bind c (fun _ => k))
  (at level 10, c at level 100, k at level 200).

(** [for x in xs: body(x)] *)
Fixpoint for_each {A B} (body : A -> M B) (xs : list A) : M unit :=
  match xs with
  | [] => ret tt
  | x :: rest => exec body x ; for_each body rest
  end.

(** ** Strings *)

(** [str(n)] for a non-negative integer, as an f-string renders it. *)
Definition dec (n : nat) : string := NilEmpty.string_of_uint (Nat.to_uint n).

Definition slash : ascii := "/"%char.

(** [s.split("/")] *)
Fixpoint split (s : string) : list string :=
  match s with
  | EmptyString => [EmptyString]
  | String c rest =>
      if decide (c = slash) then EmptyString :: split rest
      else match split rest with
           | h :: t => String c h :: t
           | [] => [String c EmptyString]
           end
  end.

(** ["/".join(l)] *)
Fixpoint join (l : list string) : string :=
  match l with
  | [] => ""
  | [x] => x
  | x :: rest => x +:+ "/" +:+ join rest
  end.

(** [l[:-2]] *)
Definition drop_last2 {A} (l : list A) : list A := take (length l - 2) l.

(** ["/".join(path.split("/")[:-2]) + "/"] *)
Definition parent_path_of (path : string) : string :=
  join (drop_last2 (split path)) +:+ "/".

(** [list.remove(x)]: drops the first occurrence. *)
Fixpoint remove_first (x : addr) (l : list addr) : list addr :=
  match l with
  | [] => []
  | y :: rest => if decide (x = y) then rest else y :: remove_first x rest
  end.

Definition root_url : string := "/outline/".

(** ** The program *)

Section Outliner.

Variable clock : nat -> Z.

(** [time.time()] *)
Definition time_time : M Z :=
  fun m => Done (clock (ticks m)) (with_ticks (S (ticks m)) m).

Definition deref (a : addr) : M OutlineItem :=
  fun m => match heap m !! a with
           | Some it => Done it m
           | None => Raise Dangling
           end.

(** An attribute assignment on the object at [a]. *)
Definition modify (a : addr) (f : OutlineItem -> OutlineItem) : M unit :=
  fun m => match heap m !! a with
           | Some it => Done tt (with_heap (<[a := f it]> (heap m)) m)
           | None => Raise Dangling
           end.

(** Object creation: the new object gets the next free address. *)
Definition alloc (it : OutlineItem) : M addr :=
  fun m => Done (length (heap m)) (with_heap (heap m ++ [it]) m).

(** [OutlineItem.__init__] *)
Definition new_OutlineItem (u : string) (t : string) : M addr :=
  do now <- time_time ;
  alloc (mkItem u t [] now).

(** [OutlineItem.add_child] *)
Definition add_child (self child : addr) : M unit :=
  exec modify self (fun it => set_children (children it ++ [child]) it) ;
  do now <- time_time ;
  modify self (set_last_modified now).

(** [OutlineItem.remove_child]; [in] and [remove] compare objects by
    identity, the class defining no [__eq__]. *)
Definition remove_child (self child : addr) : M bool :=
  do it <- deref self ;
  if decide (child ∈ children it) then
    exec modify self (fun it => set_children (remove_first child (children it)) it) ;
    do now <- time_time ;
    exec modify self (set_last_modified now) ;
    ret true
  else ret false.

(** [OutlineItem.to_dict] *)
Definition to_dict (self : addr) : M (string * string * list string) :=
  do it <- deref self ;
  fun m => match mapM (fun c => url <$> heap m !! c) (children it) with
           | Some us => Done (url it, text it, us) m
           | None => Raise Dangling
           end.

(** [OutlineModel.__init__] *)
Definition init : OutlineModel :=
  mkModel [mkItem root_url "My Outline" [] (clock 0)] 0 0
          {[ root_url := 0 ]} ∅ 1.

(** [OutlineModel.get_item] *)
Definition get_item (path : string) : M (option addr) :=
  fun m => Done (all_items m !! path) m.

Definition mark_updated (path : string) : M unit :=
  fun m => Done tt (with_updated_items ({[ path ]} ∪ updated_items m) m).

(** [OutlineModel.create_item] *)
Definition create_item (parent_path : string) (t : string) : M (option addr) :=
  do parent <- get_item parent_path ;
  match parent with
  | None => ret None
  | Some pa =>
      do p <- deref pa ;
      let new_url := parent_path +:+ dec (length (children p)) +:+ "/" in
      exec (fun m => Done tt (with_item_count (S (item_count m)) m)) ;
      do new_item <- new_OutlineItem new_url t ;
      exec add_child pa new_item ;
      exec (fun m => Done tt (with_all_items (<[new_url := new_item]> (all_items m)) m)) ;
      exec mark_updated new_url ;
      exec mark_updated parent_path ;
      ret (Some new_item)
  end.

(** [OutlineModel.update_item] *)
Definition update_item (path : string) (t : string) : M (option addr) :=
  do item <- get_item path ;
  match item with
  | None => ret None
  | Some a =>
      exec modify a (set_text t) ;
      do now <- time_time ;
      exec modify a (set_last_modified now) ;
      exec mark_updated path ;
      ret (Some a)
  end.

(** [del self.all_items[path]] *)
Definition del_all_items (path : string) : M unit :=
  fun m => match all_items m !! path with
           | Some _ => Done tt (with_all_items (delete path (all_items m)) m)
           | None => Raise KeyError
           end.

(** [OutlineModel.delete_item].  The method calls itself once for every
    level of the subtree below [path]; [fuel] is the number of nested
    calls the interpreter still allows, its recursion limit less the
    frames already in use, and a call beyond it raises [RecursionError]. *)
Fixpoint delete_item (fuel : nat) (path : string) : M bool :=
  match fuel with
  | O => raise RecursionError
  | S fuel' =>
      if decide (path = root_url) then ret false
      else
        do item <- get_item path ;
        match item with
        | None => ret false
        | Some a =>
            do it <- deref a ;
            exec for_each (fun child => do c <- deref child ; delete_item fuel' (url c))
                          (children it) ;
            let parent_path := parent_path_of path in
            do parent <- get_item parent_path ;
            exec match parent with
                 | Some pa => remove_child pa a
                 | None => ret false
                 end ;
            exec del_all_items path ;
            exec mark_updated parent_path ;
            ret true
        end
  end.

(** The loop of [cleanup_old_updates] that fills [to_remove]. *)
Fixpoint collect_old (cutoff_time : Z) (urls : list string) (to_remove : list string)
  : M (list string) :=
  match urls with
  | [] => ret to_remove
  | u :: rest =>
      do item <- get_item u ;
      match item with
      | None => collect_old cutoff_time rest to_remove
      | Some a =>
          do it <- deref a ;
          if decide (last_modified it < cutoff_time)%Z
          then collect_old cutoff_time rest (to_remove ++ [u])
          else collect_old cutoff_time rest to_remove
      end
  end.

(** [OutlineModel.cleanup_old_updates] *)
Definition cleanup_old_updates (cutoff_time : Z) : M unit :=
  fun m =>
    (do to_remove <- collect_old cutoff_time (elements (updated_items m)) [] ;
     for_each (fun u m => Done tt (with_updated_items (updated_items m ∖ {[ u ]}) m))
              to_remove) m.

(** The loop of [get_updated_items] that fills [updated]. *)
Fixpoint collect_updated (since : Z) (urls : list string) (updated : list string)
  : M (list string) :=
  match urls with
  | [] => ret updated
  | u :: rest =>
      do item <- get_item u ;
      match item with
      | None => collect_updated since rest updated
      | Some a =>
          do it <- deref a ;
          if decide (since < last_modified it)%Z
          then collect_updated since rest (updated ++ [u])
          else collect_updated since rest updated
      end
  end.

(** [OutlineModel.get_updated_items]; the set is iterated in the order of
    [elements], the program relying on no particular order. *)
Definition get_updated_items (since : Z) : M (list string) :=
  do current_time <- time_time ;
  do updated <- (fun m => collect_updated since (elements (updated_items m)) [] m) ;
  exec cleanup_old_updates (current_time - 3600)%Z ;
  ret updated.

(** [OutlineModel.clear_updated_items] *)
Definition clear_updated_items : M unit :=
  fun m => Done tt (with_updated_items ∅ m).

End Outliner.


(** ** Facts about strings *)

Section Strings.

Fixpoint slash_free (s : string) : Prop :=
  match s with
  | EmptyString => True
  | String c rest => c ≠ slash ∧ slash_free rest
  end.

Lemma str_app_cons (c : ascii) (a b : string) : String c a +:+ b = String c (a +:+ b).
Proof. reflexivity. Qed.

Lemma str_app_nil_l (s : string) : "" +:+ s = s.
Proof. reflexivity. Qed.

Lemma str_app_nil_r (s : string) : s +:+ "" = s.
Proof. induction s; [done|]. rewrite str_app_cons. by f_equal. Qed.

Lemma str_app_assoc (a b c : string) : (a +:+ b) +:+ c = a +:+ b +:+ c.
Proof. induction a; [done|]. rewrite !str_app_cons. by f_equal. Qed.

Lemma str_app_length (a b : string) :
  String.length (a +:+ b) = String.length a + String.length b.
Proof. induction a; [done|]. rewrite str_app_cons. simpl. by f_equal. Qed.

Lemma split_nonempty (s : string) : split s ≠ [].
Proof.
  induction s as [|c r IH]; simpl; [done|].
  case_decide; [done|]. by destruct (split r).
Qed.

Lemma split_app_slash (x y : string) :
  split (x +:+ "/" +:+ y) = split x ++ split y.
Proof.
  induction x as [|c r IH].
  - rewrite str_app_nil_l. by change ("/" +:+ y) with (String slash y).
  - rewrite str_app_cons. simpl. case_decide; rewrite IH; [done|].
    pose proof (split_nonempty r). by destruct (split r).
Qed.

Lemma split_snoc_slash (x : string) : split (x +:+ "/") = split x ++ [""].
Proof. exact (split_app_slash x ""). Qed.

Lemma split_slash_free (d : string) : slash_free d → split d = [d].
Proof.
  induction d as [|c r IH]; simpl; [done|].
  intros [Hc Hr]. case_decide; [done|]. by rewrite IH.
Qed.

Lemma join_split (s : string) : join (split s) = s.
Proof.
  induction s as [|c r IH]; simpl; [done|].
  pose proof (split_nonempty r) as Hne.
  case_decide as Hc.
  - subst c. destruct (split r) as [|h t] eqn:E; [done|].
    change (join ("" :: h :: t)) with ("" +:+ "/" +:+ join (h :: t)).
    by rewrite IH.
  - destruct (split r) as [|h t] eqn:E; [done|].
    destruct t as [|h' t']; simpl in *; by rewrite <- IH.
Qed.

(** A child URL determines its parent URL and its index. *)
Lemma child_url_inj (p q d e : string) :
  slash_free d → slash_free e →
  p +:+ "/" +:+ d +:+ "/" = q +:+ "/" +:+ e +:+ "/" → p = q ∧ d = e.
Proof.
  intros Hd He Heq.
  apply (f_equal split) in Heq.
  rewrite !split_app_slash, !split_snoc_slash in Heq.
  rewrite (split_slash_free d Hd), (split_slash_free e He), !(assoc_L (++)) in Heq.
  apply app_inj_tail in Heq as [Heq _].
  apply app_inj_tail in Heq as [Heq ->].
  split; [|done].
  by rewrite <- (join_split p), <- (join_split q), Heq.
Qed.

(** Stripping the last segment of a child URL gives the parent URL. *)
Lemma parent_path_of_child (p d : string) :
  slash_free d → parent_path_of (p +:+ "/" +:+ d +:+ "/") = p +:+ "/".
Proof.
  intros Hd. unfold parent_path_of, drop_last2.
  rewrite split_app_slash, split_snoc_slash, (split_slash_free d Hd).
  rewrite length_app. simpl.
  replace (length (split p) + 2 - 2) with (length (split p)) by lia.
  by rewrite take_app_length, join_split.
Qed.

Lemma string_of_uint_slash_free (d : Decimal.uint) :
  slash_free (NilEmpty.string_of_uint d).
Proof. induction d; simpl; try done; split; done. Qed.

Lemma dec_slash_free (n : nat) : slash_free (dec n).
Proof. apply string_of_uint_slash_free. Qed.

Lemma dec_inj (n k : nat) : dec n = dec k → n = k.
Proof.
  unfold dec. intros H.
  apply (f_equal NilEmpty.uint_of_string) in H.
  rewrite !NilEmpty.usu in H.
  apply DecimalNat.Unsigned.to_uint_inj. congruence.
Qed.

Lemma dec_length (n : nat) : 0 < String.length (dec n).
Proof.
  unfold dec. destruct (Nat.to_uint n) eqn:E; simpl; try lia.
  exfalso. pose proof (DecimalNat.Unsigned.of_to n) as H.
  pose proof (DecimalNat.Unsigned.to_of Decimal.Nil) as H'.
  rewrite E in H. simpl in H. subst n. discriminate E.
Qed.

End Strings.

(** ** Reasoning about calls *)

Lemma bind_Done {A B} (c : M A) (k : A → M B) m v m' :
  bind c k m = Done v m' ↔ ∃ x m1, c m = Done x m1 ∧ k x m1 = Done v m'.
Proof.
  unfold bind. split.
  - destruct (c m) as [x m1|e]; [eauto|done].
  - by intros (x & m1 & -> & ?).
Qed.

Lemma bind_eq {A B} (c : M A) (k : A → M B) m x m1 :
  c m = Done x m1 → bind c k m = k x m1.
Proof. unfold bind. by intros ->. Qed.

(** A relation between the state before and after that is reflexive and
    transitive, and that the body of a loop respects, is respected by the
    loop. *)
Lemma for_each_respects {A B} (R : relation OutlineModel) `{!PreOrder R}
    (body : A → M B) (xs : list A) :
  (∀ x m v m', x ∈ xs → body x m = Done v m' → R m m') →
  ∀ m v m', for_each body xs m = Done v m' → R m m'.
Proof.
  induction xs as [|x xs IH]; intros Hbody m v m' Hrun; simpl in Hrun.
  - unfold ret in Hrun. by simplify_eq.
  - apply bind_Done in Hrun as (y & m1 & Hx & Hrest).
    assert (R m m1) by (eapply (Hbody x); [set_solver|exact Hx]).
    assert (R m1 m').
    { eapply IH; [|exact Hrest]. intros z ??? Hz ?.
      eapply (Hbody z); [set_solver|done]. }
    by etrans.
Qed.

Section Specs.

Variable clock : nat → Z.

Lemma modify_spec (a : addr) f m it :
  heap m !! a = Some it →
  modify a f m = Done tt (with_heap (<[a := f it]> (heap m)) m).
Proof. unfold modify. by intros ->. Qed.

(** [add_child] appends [child] and stamps [self] with the next reading. *)
Lemma add_child_spec (self child : addr) m it :
  heap m !! self = Some it →
  add_child clock self child m =
    Done tt (mkModel
      (<[self := mkItem (url it) (text it) (children it ++ [child]) (clock (ticks m))]> (heap m))
      (root m) (item_count m) (all_items m) (updated_items m) (S (ticks m))).
Proof.
  intros Hit. unfold add_child.
  erewrite bind_eq by (by apply modify_spec).
  unfold bind, time_time. simpl.
  erewrite modify_spec; last first.
  { simpl. apply list_lookup_insert_eq. by eapply lookup_lt_Some. }
  unfold with_heap. simpl. by rewrite list_insert_insert_eq.
Qed.

(** [remove_child] on a child that is present drops its first occurrence
    and stamps [self]; on one that is absent it changes nothing. *)
Lemma remove_child_spec (self child : addr) m it :
  heap m !! self = Some it →
  remove_child clock self child m =
    if decide (child ∈ children it) then
      Done true (mkModel
        (<[self := mkItem (url it) (text it) (remove_first child (children it))
                          (clock (ticks m))]> (heap m))
        (root m) (item_count m) (all_items m) (updated_items m) (S (ticks m)))
    else Done false m.
Proof.
  intros Hit. unfold remove_child, bind at 1, deref. rewrite Hit.
  case_decide; [|done].
  erewrite bind_eq by (by apply modify_spec).
  unfold bind, time_time. simpl.
  erewrite modify_spec; last first.
  { simpl. apply list_lookup_insert_eq. by eapply lookup_lt_Some. }
  unfold with_heap, ret. simpl. by rewrite list_insert_insert_eq.
Qed.

(** The state after a successful [create_item]. *)
Definition created (parent_path t : string) (pa : addr) (p : OutlineItem)
    (m : OutlineModel) : OutlineModel :=
  let new_url := parent_path +:+ dec (length (children p)) +:+ "/" in
  let a := length (heap m) in
  mkModel
    (<[pa := mkItem (url p) (text p) (children p ++ [a]) (clock (S (ticks m)))]>
       (heap m ++ [mkItem new_url t [] (clock (ticks m))]))
    (root m) (S (item_count m))
    (<[new_url := a]> (all_items m))
    ({[ parent_path ]} ∪ ({[ new_url ]} ∪ updated_items m))
    (S (S (ticks m))).

Lemma create_item_spec (parent_path t : string) m pa p :
  all_items m !! parent_path = Some pa →
  heap m !! pa = Some p →
  create_item clock parent_path t m =
    Done (Some (length (heap m))) (created parent_path t pa p m).
Proof.
  intros Hpa Hp. unfold create_item, bind at 1, get_item. rewrite Hpa.
  unfold bind at 1, deref. rewrite Hp.
  unfold bind at 1. unfold bind at 1, new_OutlineItem, bind at 1, time_time, alloc.
  simpl.
  erewrite bind_eq; last first.
  { apply add_child_spec. simpl. by apply lookup_app_l_Some. }
  by simpl.
Qed.

Lemma create_item_missing (parent_path t : string) m :
  all_items m !! parent_path = None →
  create_item clock parent_path t m = Done None m.
Proof. intros H. unfold create_item, bind, get_item. by rewrite H. Qed.

(** The state after a successful [update_item]. *)
Definition updated (path t : string) (a : addr) (it : OutlineItem)
    (m : OutlineModel) : OutlineModel :=
  mkModel
    (<[a := mkItem (url it) t (children it) (clock (ticks m))]> (heap m))
    (root m) (item_count m) (all_items m)
    ({[ path ]} ∪ updated_items m) (S (ticks m)).

Lemma update_item_spec (path t : string) m a it :
  all_items m !! path = Some a →
  heap m !! a = Some it →
  update_item clock path t m = Done (Some a) (updated path t a it m).
Proof.
  intros Ha Hit. unfold update_item, bind at 1, get_item. rewrite Ha.
  erewrite bind_eq by (by apply modify_spec).
  unfold bind, time_time. simpl.
  erewrite modify_spec; last first.
  { simpl. apply list_lookup_insert_eq. by eapply lookup_lt_Some. }
  unfold with_heap, mark_updated, ret, updated. simpl.
  by rewrite list_insert_insert_eq.
Qed.

Lemma update_item_missing (path t : string) m :
  all_items m !! path = None →
  update_item clock path t m = Done None m.
Proof. intros H. unfold update_item, bind, get_item. by rewrite H. Qed.

End Specs.

(** ** How a call may change the objects *)

Section Evolution.

Variable clock : nat → Z.

(** [it] carries a clock reading taken between the two states. *)
Definition stamped (m m' : OutlineModel) (it : OutlineItem) : Prop :=
  ∃ j, ticks m ≤ j < ticks m' ∧ last_modified it = clock j.

(** [evolves m m']: objects are never lost and keep their [url]; an object
    is either left exactly as it was or carries a reading taken in
    between; so does every object created in between. *)
Record evolves (m m' : OutlineModel) : Prop := mkEvolves {
  ev_ticks : ticks m ≤ ticks m';
  ev_old : ∀ a it, heap m !! a = Some it →
    ∃ it', heap m' !! a = Some it' ∧ url it' = url it ∧ (it' = it ∨ stamped m m' it');
  ev_new : ∀ a it', heap m' !! a = Some it' → heap m !! a = None → stamped m m' it'
}.

Lemma stamped_weaken m1 m2 m m' it :
  stamped m1 m2 it → ticks m ≤ ticks m1 → ticks m2 ≤ ticks m' → stamped m m' it.
Proof. intros (j & ? & ?) ??. exists j. split; [lia|done]. Qed.

Global Instance evolves_preorder : PreOrder evolves.
Proof.
  split.
  - intros m. split; [done| |].
    + intros a it Hit. exists it. auto.
    + intros a it' H1 H2. congruence.
  - intros m1 m2 m3 [T12 O12 N12] [T23 O23 N23]. split; [lia| |].
    + intros a it Hit.
      destruct (O12 a it Hit) as (it2 & Hit2 & Hu2 & Hc2).
      destruct (O23 a it2 Hit2) as (it3 & Hit3 & Hu3 & Hc3).
      exists it3. split; [done|]. split; [congruence|].
      destruct Hc3 as [->|Hs]; [|right; eapply stamped_weaken; [done|lia..]].
      destruct Hc2 as [->|Hs]; [by left|].
      right. eapply stamped_weaken; [done|lia..].
    + intros a it3 Hit3 Hnone.
      destruct (heap m2 !! a) as [it2|] eqn:Hit2.
      * destruct (O23 a it2 Hit2) as (it3' & Hit3' & _ & Hc3).
        assert (it3' = it3) as -> by congruence.
        destruct Hc3 as [->|Hs]; [|eapply stamped_weaken; [done|lia..]].
        eapply stamped_weaken; [by eapply N12|lia..].
      * eapply stamped_weaken; [by eapply N23|lia..].
Qed.

(** A step that touches no object. *)
Lemma evolves_same_heap m m' :
  heap m' = heap m → ticks m ≤ ticks m' → evolves m m'.
Proof.
  intros Hh Ht. split; [done| |]; rewrite Hh.
  - intros a it ?. exists it. auto.
  - congruence.
Qed.

(** A step that rewrites one object, keeping its [url] and stamping it. *)
Lemma evolves_stamp_one m m' (a : addr) (it it' : OutlineItem) :
  heap m !! a = Some it →
  heap m' = <[a := it']> (heap m) →
  url it' = url it →
  ticks m' = S (ticks m) →
  last_modified it' = clock (ticks m) →
  evolves m m'.
Proof.
  intros Hit Hh Hu Ht Hl.
  assert (stamped m m' it') as Hst by (exists (ticks m); split; [lia|done]).
  split; [lia| |]; rewrite Hh.
  - intros b itb Hb. destruct (decide (a = b)) as [->|Hne].
    + exists it'. rewrite list_lookup_insert_eq by (by eapply lookup_lt_Some).
      split; [done|]. split; [congruence|by right].
    + exists itb. rewrite list_lookup_insert_ne by done. auto.
  - intros b itb Hb Hnone. destruct (decide (a = b)) as [->|Hne]; [congruence|].
    rewrite list_lookup_insert_ne in Hb by done. congruence.
Qed.

Lemma add_child_evolves self child m v m' :
  add_child clock self child m = Done v m' → evolves m m'.
Proof.
  intros H. destruct (heap m !! self) as [it|] eqn:Hit.
  - rewrite (add_child_spec _ _ _ _ _ Hit) in H. simplify_eq.
    by eapply evolves_stamp_one.
  - unfold add_child, bind, modify in H. by rewrite Hit in H.
Qed.

Lemma remove_child_evolves self child m v m' :
  remove_child clock self child m = Done v m' → evolves m m'.
Proof.
  intros H. destruct (heap m !! self) as [it|] eqn:Hit.
  - rewrite (remove_child_spec _ _ _ _ _ Hit) in H.
    case_decide; simplify_eq; [|done]. by eapply evolves_stamp_one.
  - unfold remove_child, bind, deref in H. by rewrite Hit in H.
Qed.

Lemma created_evolves parent_path t pa p m :
  heap m !! pa = Some p → evolves m (created clock parent_path t pa p m).
Proof.
  intros Hp. pose proof (lookup_lt_Some _ _ _ Hp) as Hlt.
  split; simpl; [lia| |].
  - intros a it Hit. destruct (decide (pa = a)) as [->|Hne].
    + eexists. rewrite list_lookup_insert_eq by (rewrite length_app; lia).
      split; [done|]. simplify_eq. split; [done|].
      right. exists (S (ticks m)). simpl. split; [lia|done].
    + exists it. rewrite list_lookup_insert_ne by done.
      rewrite lookup_app_l by (by eapply lookup_lt_Some). auto.
  - intros a it' Hit' Hnone.
    assert (pa ≠ a) as Hne by congruence.
    rewrite list_lookup_insert_ne in Hit' by done.
    apply lookup_ge_None in Hnone.
    rewrite lookup_app_r in Hit' by done.
    apply list_lookup_singleton_Some in Hit' as [_ <-].
    exists (ticks m). simpl. split; [lia|done].
Qed.

Lemma created_heap_new parent_path t pa p m :
  heap m !! pa = Some p →
  heap (created clock parent_path t pa p m) !! length (heap m)
  = Some (mkItem (parent_path +:+ dec (length (children p)) +:+ "/") t []
                 (clock (ticks m))).
Proof.
  intros Hp. pose proof (lookup_lt_Some _ _ _ Hp). simpl.
  rewrite list_lookup_insert_ne by lia.
  rewrite lookup_app_r by done. by rewrite Nat.sub_diag.
Qed.

Lemma created_heap_parent parent_path t pa p m :
  heap m !! pa = Some p →
  heap (created clock parent_path t pa p m) !! pa
  = Some (mkItem (url p) (text p) (children p ++ [length (heap m)])
                 (clock (S (ticks m)))).
Proof.
  intros Hp. pose proof (lookup_lt_Some _ _ _ Hp). simpl.
  apply list_lookup_insert_eq. rewrite length_app. lia.
Qed.

Lemma created_heap_other parent_path t pa p m a :
  a ≠ pa → a ≠ length (heap m) →
  heap (created clock parent_path t pa p m) !! a = heap m !! a.
Proof.
  intros Hne Hne'. simpl. rewrite list_lookup_insert_ne by done.
  destruct (decide (a < length (heap m))).
  - by rewrite lookup_app_l.
  - rewrite !lookup_ge_None_2; [done|lia|rewrite length_app; simpl; lia].
Qed.

(** The objects of the state after [create_item]: the parent with one more
    child, the new object, and all others as they were. *)
Lemma created_heap_cases parent_path t pa p m a it :
  heap m !! pa = Some p →
  heap (created clock parent_path t pa p m) !! a = Some it →
  (a = pa ∧ it = mkItem (url p) (text p) (children p ++ [length (heap m)])
                        (clock (S (ticks m)))) ∨
  (a = length (heap m) ∧
   it = mkItem (parent_path +:+ dec (length (children p)) +:+ "/") t [] (clock (ticks m))) ∨
  (a ≠ pa ∧ a ≠ length (heap m) ∧ heap m !! a = Some it).
Proof.
  intros Hp Hit. destruct (decide (a = pa)) as [->|Hne].
  - left. rewrite created_heap_parent in Hit by done. by simplify_eq.
  - destruct (decide (a = length (heap m))) as [->|Hne'].
    + right; left. rewrite created_heap_new in Hit by done. by simplify_eq.
    + right; right. by rewrite created_heap_other in Hit.
Qed.

Lemma create_item_evolves parent_path t m v m' :
  create_item clock parent_path t m = Done v m' → evolves m m'.
Proof.
  intros H. destruct (all_items m !! parent_path) as [pa|] eqn:Hpa.
  - destruct (heap m !! pa) as [p|] eqn:Hp.
    + rewrite (create_item_spec _ _ _ _ _ _ Hpa Hp) in H. simplify_eq.
      by apply created_evolves.
    + unfold create_item, bind, get_item, deref in H. by rewrite Hpa, Hp in H.
  - rewrite create_item_missing in H by done. by simplify_eq.
Qed.

Lemma update_item_evolves path t m v m' :
  update_item clock path t m = Done v m' → evolves m m'.
Proof.
  intros H. destruct (all_items m !! path) as [a|] eqn:Ha.
  - destruct (heap m !! a) as [it|] eqn:Hit.
    + rewrite (update_item_spec _ _ _ _ _ _ Ha Hit) in H. simplify_eq.
      by eapply evolves_stamp_one.
    + unfold update_item, bind, get_item, modify in H. by rewrite Ha, Hit in H.
  - rewrite update_item_missing in H by done. by simplify_eq.
Qed.

End Evolution.

(** ** Deletion *)

Section Deletion.

Variable clock : nat → Z.

(** The loop of [delete_item] over the snapshot of the children. *)
Definition delete_children (fuel : nat) (cs : list addr) : M unit :=
  for_each (fun child => do c <- deref child ; delete_item clock fuel (url c)) cs.

(** The lookup of the parent and the call of [remove_child] on it. *)
Definition detach (path : string) (a : addr) : M bool :=
  do parent <- get_item (parent_path_of path) ;
  match parent with
  | Some pa => remove_child clock pa a
  | None => ret false
  end.

(** The two assignments that end a successful [delete_item]. *)
Definition forget (path : string) (m : OutlineModel) : OutlineModel :=
  mkModel (heap m) (root m) (item_count m) (delete path (all_items m))
          ({[ parent_path_of path ]} ∪ updated_items m) (ticks m).

Lemma delete_item_refused (fuel : nat) (path : string) m :
  path = root_url ∨ all_items m !! path = None →
  delete_item clock (S fuel) path m = Done false m.
Proof.
  intros H. simpl. case_decide; [done|].
  destruct H as [?|H]; [done|]. unfold bind, get_item. by rewrite H.
Qed.

Lemma delete_item_step (fuel : nat) (path : string) m a it :
  path ≠ root_url → all_items m !! path = Some a → heap m !! a = Some it →
  delete_item clock (S fuel) path m =
    match delete_children fuel (children it) m with
    | Done _ m1 =>
        match detach path a m1 with
        | Done _ m2 =>
            match all_items m2 !! path with
            | Some _ => Done true (forget path m2)
            | None => Raise KeyError
            end
        | Raise e => Raise e
        end
    | Raise e => Raise e
    end.
Proof.
  intros Hne Ha Hit. simpl. case_decide; [done|].
  unfold delete_children, detach, bind, get_item, deref. rewrite Ha, Hit.
  destruct (for_each _ _ m) as [[] m1|e]; [|done].
  destruct (all_items m1 !! parent_path_of path) as [pa|].
  - destruct (remove_child clock pa a m1) as [v m2|e]; [|done].
    unfold del_all_items. by destruct (all_items m2 !! path).
  - unfold ret, del_all_items. by destruct (all_items m1 !! path).
Qed.

(** A returning call either refused, leaving the state as it was, or went
    through the three phases. *)
Lemma delete_item_Done (fuel : nat) (path : string) m b m' :
  delete_item clock fuel path m = Done b m' →
  (b = false ∧ m' = m ∧ (path = root_url ∨ all_items m !! path = None)) ∨
  (b = true ∧ path ≠ root_url ∧
   ∃ fuel' a it m1 v m2,
     fuel = S fuel' ∧
     all_items m !! path = Some a ∧ heap m !! a = Some it ∧
     delete_children fuel' (children it) m = Done tt m1 ∧
     detach path a m1 = Done v m2 ∧
     is_Some (all_items m2 !! path) ∧
     m' = forget path m2).
Proof.
  destruct fuel as [|fuel]; [done|]. intros H.
  destruct (decide (path = root_url)) as [Hr|Hr].
  { rewrite delete_item_refused in H by auto. simplify_eq. auto. }
  destruct (all_items m !! path) as [a|] eqn:Ha; last first.
  { rewrite delete_item_refused in H by auto. simplify_eq. auto. }
  destruct (heap m !! a) as [it|] eqn:Hit; last first.
  { simpl in H. case_decide; [done|].
    unfold bind, get_item, deref in H. by rewrite Ha, Hit in H. }
  rewrite (delete_item_step _ _ _ _ _ Hr Ha Hit) in H.
  destruct (delete_children fuel (children it) m) as [[] m1|] eqn:H1; [|done].
  destruct (detach path a m1) as [v m2|] eqn:H2; [|done].
  destruct (all_items m2 !! path) eqn:H3; [|done].
  simplify_eq. right. split; [done|]. split; [done|].
  exists fuel, a, it, m1, v, m2. rewrite H3. eauto 10.
Qed.

Lemma detach_evolves path a m v m' : detach path a m = Done v m' → evolves clock m m'.
Proof.
  unfold detach, bind, get_item. destruct (all_items m !! parent_path_of path).
  - apply remove_child_evolves.
  - unfold ret. intros; by simplify_eq.
Qed.

Lemma forget_evolves path m : evolves clock m (forget path m).
Proof. by apply evolves_same_heap. Qed.

Lemma delete_item_evolves (fuel : nat) : ∀ path m b m',
  delete_item clock fuel path m = Done b m' → evolves clock m m'.
Proof.
  induction fuel as [|fuel IH]; intros path m b m' H; [done|].
  apply delete_item_Done in H
    as [(_ & -> & _)|(_ & _ & f & a & it & m1 & v & m2 & Hf & _ & _ & H1 & H2 & _ & ->)];
    [done|].
  simplify_eq. etrans; [|etrans; [by eapply detach_evolves|apply forget_evolves]].
  eapply for_each_respects; [apply _| |exact H1].
  intros x mc vc mc' _ Hx. apply bind_Done in Hx as (c & ? & Hd & Hx).
  unfold deref in Hd. destruct (heap mc !! x); simplify_eq. by eapply IH.
Qed.

(** [shrinks m m']: the object store keeps its size, objects keep their
    [url] and only lose children, and the dictionary only loses keys. *)
Record shrinks (m m' : OutlineModel) : Prop := mkShrinks {
  sh_len : length (heap m') = length (heap m);
  sh_heap : ∀ a it, heap m !! a = Some it →
    ∃ it', heap m' !! a = Some it' ∧ url it' = url it ∧ children it' ⊆ children it;
  sh_items : all_items m' ⊆ all_items m
}.

Global Instance shrinks_preorder : PreOrder shrinks.
Proof.
  split.
  - intros m. split; [done| |done]. intros a it ?. by exists it.
  - intros m1 m2 m3 [L12 H12 I12] [L23 H23 I23]. split; [congruence| |by etrans].
    intros a it Hit.
    destruct (H12 a it Hit) as (it2 & Hit2 & Hu2 & Hc2).
    destruct (H23 a it2 Hit2) as (it3 & Hit3 & Hu3 & Hc3).
    exists it3. split; [done|]. split; [congruence|by etrans].
Qed.

Lemma remove_first_subseteq (x : addr) (l : list addr) : remove_first x l ⊆ l.
Proof.
  induction l as [|y l IH]; simpl; [done|].
  destruct (decide (x = y)).
  - intros z Hz. by right.
  - intros z [->|Hz]%elem_of_cons; [left|right; by apply IH].
Qed.

Lemma detach_shrinks path a m v m' : detach path a m = Done v m' → shrinks m m'.
Proof.
  unfold detach, bind, get_item.
  destruct (all_items m !! parent_path_of path) as [pa|]; last first.
  { unfold ret. intros; by simplify_eq. }
  intros H. destruct (heap m !! pa) as [p|] eqn:Hp; last first.
  { unfold remove_child, bind, deref in H. by rewrite Hp in H. }
  rewrite (remove_child_spec _ _ _ _ _ Hp) in H.
  case_decide; simplify_eq; [|done].
  split; simpl; [by rewrite length_insert| |done].
  intros b itb Hb. destruct (decide (pa = b)) as [->|Hne].
  - eexists. rewrite list_lookup_insert_eq by (by eapply lookup_lt_Some).
    split; [done|]. simplify_eq. split; [done|]. apply remove_first_subseteq.
  - exists itb. by rewrite list_lookup_insert_ne.
Qed.

Lemma forget_shrinks path m : shrinks m (forget path m).
Proof.
  split; simpl; [done| |apply delete_subseteq].
  intros a it ?. by exists it.
Qed.

Lemma delete_item_shrinks (fuel : nat) : ∀ path m b m',
  delete_item clock fuel path m = Done b m' → shrinks m m'.
Proof.
  induction fuel as [|fuel IH]; intros path m b m' H; [done|].
  apply delete_item_Done in H
    as [(_ & -> & _)|(_ & _ & f & a & it & m1 & v & m2 & Hf & _ & _ & H1 & H2 & _ & ->)];
    [done|].
  simplify_eq. etrans; [|etrans; [by eapply detach_shrinks|apply forget_shrinks]].
  eapply for_each_respects; [apply _| |exact H1].
  intros x mc vc mc' _ Hx. apply bind_Done in Hx as (c & ? & Hd & Hx).
  unfold deref in Hd. destruct (heap mc !! x); simplify_eq. by eapply IH.
Qed.

End Deletion.

(** ** The shape every reachable store has *)

(** Every URL of the dictionary leads to an object that carries that URL,
    and every child is an object with a longer URL than its parent. *)
Record tree_ok (m : OutlineModel) : Prop := mkTreeOk {
  ok_mapped : ∀ k a, all_items m !! k = Some a →
    ∃ it, heap m !! a = Some it ∧ url it = k;
  ok_children : ∀ a it c, heap m !! a = Some it → c ∈ children it →
    ∃ cit, heap m !! c = Some cit ∧ String.length (url it) < String.length (url cit)
}.

Lemma tree_ok_shrinks m m' : tree_ok m → shrinks m m' → tree_ok m'.
Proof.
  intros [Hmap Hch] [Hlen Hheap Hitems]. split.
  - intros k a Ha. eapply lookup_weaken in Ha; [|done].
    destruct (Hmap k a Ha) as (it & Hit & Hu).
    destruct (Hheap a it Hit) as (it' & ? & ? & _). exists it'. split; [done|congruence].
  - intros a it' c Hit' Hc.
    destruct (heap m !! a) as [it|] eqn:Hit; last first.
    { apply lookup_ge_None in Hit. apply lookup_lt_Some in Hit'. lia. }
    destruct (Hheap a it Hit) as (it'' & ? & Hu & Hsub).
    assert (it'' = it') as -> by congruence.
    destruct (Hch a it c Hit) as (cit & Hcit & Hlt); [by apply Hsub|].
    destruct (Hheap c cit Hcit) as (cit' & ? & Hu' & _).
    exists cit'. split; [done|]. rewrite Hu, Hu'. done.
Qed.

(** No URL of the object store is longer than [B]. *)
Definition url_bound (B : nat) (m : OutlineModel) : Prop :=
  ∀ a it, heap m !! a = Some it → String.length (url it) ≤ B.

Lemma url_bound_shrinks B m m' : url_bound B m → shrinks m m' → url_bound B m'.
Proof.
  intros HB [Hlen Hheap _] a it' Hit'.
  destruct (heap m !! a) as [it|] eqn:Hit; last first.
  { apply lookup_ge_None in Hit. apply lookup_lt_Some in Hit'. lia. }
  destruct (Hheap a it Hit) as (it'' & ? & Hu & _).
  assert (it'' = it') as -> by congruence. rewrite Hu. by eapply HB.
Qed.

(** The length of the longest URL given to an object so far. *)
Definition max_url_length (m : OutlineModel) : nat :=
  foldr (λ it n, String.length (url it) `max` n) 0 (heap m).

Lemma max_url_length_bound m : url_bound (max_url_length m) m.
Proof.
  unfold url_bound, max_url_length. induction (heap m) as [|x h IH]; intros a it Ha.
  - done.
  - destruct a as [|a]; simpl in *.
    + injection Ha as ->. lia.
    + specialize (IH a it Ha). lia.
Qed.

(** Every URL that left the dictionary has at least [n] characters. *)
Definition removed_ge (n : nat) (m m' : OutlineModel) : Prop :=
  ∀ k, is_Some (all_items m !! k) → all_items m' !! k = None → n ≤ String.length k.

Lemma removed_ge_refl n m : removed_ge n m m.
Proof. intros k [a Ha] Hn. congruence. Qed.

Lemma removed_ge_trans n m1 m2 m3 :
  removed_ge n m1 m2 → removed_ge n m2 m3 → removed_ge n m1 m3.
Proof.
  intros H12 H23 k Hk Hn. destruct (all_items m2 !! k) eqn:E.
  - apply H23; [by rewrite E|done].
  - by apply H12.
Qed.

Lemma removed_ge_weaken n n' m m' : n' ≤ n → removed_ge n m m' → removed_ge n' m m'.
Proof. intros Hle H k Hk Hn. specialize (H k Hk Hn). lia. Qed.

Lemma for_each_invariant {A B} (I : OutlineModel → Prop) (body : A → M B) (xs : list A) :
  (∀ x m v m', x ∈ xs → I m → body x m = Done v m' → I m') →
  ∀ m v m', I m → for_each body xs m = Done v m' → I m'.
Proof.
  induction xs as [|x xs IH]; intros Hbody m v m' Hm Hrun; simpl in Hrun.
  - unfold ret in Hrun. by simplify_eq.
  - apply bind_Done in Hrun as (y & m1 & Hx & Hrest).
    eapply IH; [|eapply (Hbody x); [set_solver|exact Hm|exact Hx]|exact Hrest].
    intros z ??? Hz. apply Hbody. set_solver.
Qed.

Lemma for_each_total {A B} (I : OutlineModel → Prop) (body : A → M B) (xs : list A) :
  (∀ x m, x ∈ xs → I m → ∃ v m', body x m = Done v m' ∧ I m') →
  ∀ m, I m → ∃ m', for_each body xs m = Done tt m' ∧ I m'.
Proof.
  induction xs as [|x xs IH]; intros Hbody m Hm; simpl.
  - by exists m.
  - destruct (Hbody x m) as (v & m1 & Hx & Hm1); [set_solver|done|].
    destruct (IH (λ z mz Hz, Hbody z mz ltac:(set_solver)) m1 Hm1) as (m' & Hrun & Hm').
    exists m'. split; [|done]. by rewrite (bind_eq _ _ _ _ _ Hx).
Qed.

Section DeletionTotal.

Variable clock : nat → Z.

Lemma detach_all_items path a m v m' :
  detach clock path a m = Done v m' → all_items m' = all_items m.
Proof.
  unfold detach, bind, get_item.
  destruct (all_items m !! parent_path_of path) as [pa|]; last first.
  { unfold ret. intros; by simplify_eq. }
  intros H. destruct (heap m !! pa) as [p|] eqn:Hp; last first.
  { unfold remove_child, bind, deref in H. by rewrite Hp in H. }
  rewrite (remove_child_spec _ _ _ _ _ Hp) in H. by case_decide; simplify_eq.
Qed.

Lemma detach_total path a m :
  tree_ok m → ∃ v m', detach clock path a m = Done v m'.
Proof.
  intros [Hmap _]. unfold detach, bind, get_item.
  destruct (all_items m !! parent_path_of path) as [pa|] eqn:Hpa; [|by eexists _, _].
  destruct (Hmap _ _ Hpa) as (p & Hp & _).
  rewrite (remove_child_spec _ _ _ _ _ Hp). case_decide; by eexists _, _.
Qed.

(** What the loop over the children of the object at [path] maintains. *)
Definition loop_inv (path : string) (m mc : OutlineModel) : Prop :=
  shrinks m mc ∧ removed_ge (S (String.length path)) m mc.

(** A call at [path] only removes URLs at least as long as [path]. *)
Lemma delete_item_removed (fuel : nat) : ∀ path m b m',
  tree_ok m → delete_item clock fuel path m = Done b m' →
  removed_ge (String.length path) m m'.
Proof.
  induction fuel as [|fuel IH]; intros path m b m' Hok H; [done|].
  apply delete_item_Done in H
    as [(_ & -> & _)|(_ & _ & f & a & it & m1 & v & m2 & Hf & Ha & Hit & H1 & H2 & _ & ->)];
    [apply removed_ge_refl|].
  simplify_eq.
  destruct (ok_mapped _ Hok _ _ Ha) as (it0 & Hit0 & Hurl).
  assert (it0 = it) as -> by congruence.
  assert (loop_inv path m m1) as [Hsh Hrem].
  { eapply (for_each_invariant (loop_inv path m)); [|split; [done|apply removed_ge_refl]|exact H1].
    intros x mc vc mc' Hx [Hsh Hrem] Hbody.
    apply bind_Done in Hbody as (c & ? & Hd & Hbody).
    unfold deref in Hd. destruct (heap mc !! x) as [cx|] eqn:Hcx; simplify_eq.
    destruct (ok_children _ Hok _ _ _ Hit Hx) as (cit & Hcit & Hlt).
    destruct (sh_heap _ _ Hsh _ _ Hcit) as (cx' & ? & Hu & _).
    assert (cx' = c) as -> by congruence.
    split.
    - etrans; [done|]. by eapply delete_item_shrinks.
    - eapply removed_ge_trans; [done|].
      eapply removed_ge_weaken; [|eapply IH; [by eapply tree_ok_shrinks|done]].
      rewrite Hu. lia. }
  intros k Hk Hnone. simpl in Hnone.
  rewrite (detach_all_items _ _ _ _ _ H2) in Hnone.
  destruct (decide (path = k)) as [->|Hne]; [done|].
  rewrite lookup_delete_ne in Hnone by done.
  specialize (Hrem k Hk Hnone). lia.
Qed.

(** A call returns when the interpreter allows enough nested calls: more
    than the longest URL exceeds [path] in length, a child URL being
    longer than the URL of its parent. *)
Lemma delete_item_total (fuel : nat) : ∀ path m B,
  tree_ok m → url_bound B m → B < String.length path + fuel → 0 < fuel →
  ∃ b m', delete_item clock fuel path m = Done b m'.
Proof.
  induction fuel as [|fuel IH]; intros path m B Hok HB Hfuel Hpos; [lia|].
  destruct (decide (path = root_url)) as [Hr|Hr].
  { exists false, m. apply delete_item_refused. auto. }
  destruct (all_items m !! path) as [a|] eqn:Ha; last first.
  { exists false, m. apply delete_item_refused. auto. }
  destruct (ok_mapped _ Hok _ _ Ha) as (it & Hit & Hurl).
  rewrite (delete_item_step _ _ _ _ _ _ Hr Ha Hit).
  destruct (for_each_total (loop_inv path m)
              (fun child => do c <- deref child ; delete_item clock fuel (url c))
              (children it)) with (m := m) as (m1 & H1 & Hsh & Hrem).
  { intros x mc Hx [Hsh Hrem].
    destruct (ok_children _ Hok _ _ _ Hit Hx) as (cit & Hcit & Hlt).
    destruct (sh_heap _ _ Hsh _ _ Hcit) as (c & Hc & Hu & _).
    pose proof (HB _ _ Hcit) as Hle.
    assert (String.length (url it) = String.length path) as Hlen by congruence.
    assert (tree_ok mc) as Hokc by (by eapply tree_ok_shrinks).
    destruct (IH (url c) mc B) as (b & mc' & Hrun);
      [done|by eapply url_bound_shrinks|rewrite Hu; lia|lia|].
    exists b, mc'. split.
    - unfold bind, deref. by rewrite Hc.
    - split.
      + etrans; [done|]. by eapply delete_item_shrinks.
      + eapply removed_ge_trans; [done|].
        eapply removed_ge_weaken; [|by eapply delete_item_removed].
        rewrite Hu. lia. }
  { split; [done|apply removed_ge_refl]. }
  unfold delete_children. rewrite H1.
  destruct (detach_total path a m1) as (v & m2 & H2); [by eapply tree_ok_shrinks|].
  rewrite H2, (detach_all_items _ _ _ _ _ H2).
  destruct (all_items m1 !! path) eqn:Hp; [by eexists _, _|].
  specialize (Hrem path). rewrite Ha in Hrem. specialize (Hrem ltac:(eauto) Hp). lia.
Qed.

End DeletionTotal.

(** ** Change tracking *)

(** [last_modified] of the object a URL leads to, if there is one. *)
Definition stamp_of (m : OutlineModel) (u : string) : option Z :=
  match all_items m !! u with
  | Some a => last_modified <$> heap m !! a
  | None => None
  end.

(** The test of the loop in [get_updated_items]. *)
Definition changed_since (m : OutlineModel) (since : Z) (u : string) : bool :=
  match stamp_of m u with
  | Some t => bool_decide (since < t)%Z
  | None => false
  end.

(** The test of the loop in [cleanup_old_updates]. *)
Definition expired (m : OutlineModel) (cutoff_time : Z) (u : string) : bool :=
  match stamp_of m u with
  | Some t => bool_decide (t < cutoff_time)%Z
  | None => false
  end.

Lemma changed_since_iff m since u :
  changed_since m since u ↔
  ∃ a it, all_items m !! u = Some a ∧ heap m !! a = Some it ∧ (since < last_modified it)%Z.
Proof.
  unfold changed_since, stamp_of. split.
  - destruct (all_items m !! u) as [a|]; [|done].
    destruct (heap m !! a) as [it|] eqn:Hit; [|done]. simpl.
    intros ?%bool_decide_unpack. by exists a, it.
  - intros (a & it & -> & -> & ?). simpl. by apply bool_decide_pack.
Qed.

Lemma expired_iff m cutoff u :
  expired m cutoff u ↔
  ∃ a it, all_items m !! u = Some a ∧ heap m !! a = Some it ∧ (last_modified it < cutoff)%Z.
Proof.
  unfold expired, stamp_of. split.
  - destruct (all_items m !! u) as [a|]; [|done].
    destruct (heap m !! a) as [it|] eqn:Hit; [|done]. simpl.
    intros ?%bool_decide_unpack. by exists a, it.
  - intros (a & it & -> & -> & ?). simpl. by apply bool_decide_pack.
Qed.

Lemma collect_updated_spec since urls : ∀ acc m,
  tree_ok m →
  collect_updated since urls acc m
  = Done (acc ++ filter (λ u, changed_since m since u) urls) m.
Proof.
  induction urls as [|u urls IH]; intros acc m Hok; simpl.
  - unfold ret. by rewrite app_nil_r.
  - unfold bind at 1, get_item.
    destruct (all_items m !! u) as [a|] eqn:Ha.
    + destruct (ok_mapped _ Hok _ _ Ha) as (it & Hit & _).
      unfold bind, deref. rewrite Hit.
      destruct (decide (since < last_modified it)%Z).
      * rewrite filter_cons_True; [|apply changed_since_iff; by exists a, it].
        rewrite IH by done. by rewrite <- (assoc_L (++)).
      * rewrite filter_cons_False; [by apply IH|].
        intros (a' & it' & ? & ? & ?)%changed_since_iff. simplify_eq. done.
    + rewrite filter_cons_False; [by apply IH|].
      intros (a' & it' & ? & ? & ?)%changed_since_iff. simplify_eq.
Qed.

Lemma collect_old_spec cutoff urls : ∀ acc m,
  tree_ok m →
  collect_old cutoff urls acc m
  = Done (acc ++ filter (λ u, expired m cutoff u) urls) m.
Proof.
  induction urls as [|u urls IH]; intros acc m Hok; simpl.
  - unfold ret. by rewrite app_nil_r.
  - unfold bind at 1, get_item.
    destruct (all_items m !! u) as [a|] eqn:Ha.
    + destruct (ok_mapped _ Hok _ _ Ha) as (it & Hit & _).
      unfold bind, deref. rewrite Hit.
      destruct (decide (last_modified it < cutoff)%Z).
      * rewrite filter_cons_True; [|apply expired_iff; by exists a, it].
        rewrite IH by done. by rewrite <- (assoc_L (++)).
      * rewrite filter_cons_False; [by apply IH|].
        intros (a' & it' & ? & ? & ?)%expired_iff. simplify_eq. done.
    + rewrite filter_cons_False; [by apply IH|].
      intros (a' & it' & ? & ? & ?)%expired_iff. simplify_eq.
Qed.

Lemma discard_all (l : list string) : ∀ m,
  for_each (λ u m, Done tt (with_updated_items (updated_items m ∖ {[ u ]}) m)) l m
  = Done tt (with_updated_items (updated_items m ∖ list_to_set l) m).
Proof.
  induction l as [|u l IH]; intros m; simpl.
  - unfold ret, with_updated_items. destruct m; simpl. f_equal.
    by rewrite difference_empty_L.
  - unfold bind. rewrite IH. unfold with_updated_items. simpl.
    f_equal. by rewrite difference_difference_l_L.
Qed.

(** The dirty set after the sweep with cutoff [cutoff_time]. *)
Definition swept (m : OutlineModel) (cutoff_time : Z) : gset string :=
  updated_items m ∖
    list_to_set (filter (λ u, expired m cutoff_time u) (elements (updated_items m))).

Lemma elem_of_swept m cutoff u :
  u ∈ swept m cutoff ↔ u ∈ updated_items m ∧ ¬ expired m cutoff u.
Proof.
  unfold swept. rewrite elem_of_difference, elem_of_list_to_set, list_elem_of_filter.
  rewrite elem_of_elements. tauto.
Qed.

Lemma cleanup_old_updates_spec cutoff m :
  tree_ok m →
  cleanup_old_updates cutoff m = Done tt (with_updated_items (swept m cutoff) m).
Proof.
  intros Hok. unfold cleanup_old_updates, bind.
  rewrite collect_old_spec by done. simpl. by rewrite discard_all.
Qed.

Section ChangeTracking.

Variable clock : nat → Z.

(** The state after [get_updated_items] in state [m]. *)
Definition polled (m : OutlineModel) : OutlineModel :=
  mkModel (heap m) (root m) (item_count m) (all_items m)
          (swept m (clock (ticks m) - 3600)) (S (ticks m)).

Lemma get_updated_items_spec since m :
  tree_ok m →
  get_updated_items clock since m
  = Done (filter (λ u, changed_since m since u) (elements (updated_items m))) (polled m).
Proof.
  intros Hok. unfold get_updated_items, bind at 1, time_time.
  assert (tree_ok (with_ticks (S (ticks m)) m)) as Hok' by (by destruct Hok).
  unfold bind at 1. rewrite collect_updated_spec by done. simpl.
  unfold bind. rewrite cleanup_old_updates_spec by done. done.
Qed.

Lemma polled_evolves m : evolves clock m (polled m).
Proof. apply evolves_same_heap; simpl; [done|lia]. Qed.

End ChangeTracking.

(** ** Operations and reachable states *)

(** The calls the transport layer makes on the model. *)
Inductive Op : Type :=
| CreateItem (parent_path t : string)
| UpdateItem (path t : string)
| DeleteItem (path : string)
| GetUpdatedItems (since : Z)
| ClearUpdatedItems.

Definition is_delete (op : Op) : Prop :=
  match op with DeleteItem _ => True | _ => False end.

Section Reachability.

Variable clock : nat → Z.

Definition perform (fuel : nat) (op : Op) : M unit :=
  match op with
  | CreateItem parent_path t => exec create_item clock parent_path t ; ret tt
  | UpdateItem path t => exec update_item clock path t ; ret tt
  | DeleteItem path => exec delete_item clock fuel path ; ret tt
  | GetUpdatedItems since => exec get_updated_items clock since ; ret tt
  | ClearUpdatedItems => clear_updated_items
  end.

(** The states the model goes through when only operations satisfying
    [allowed] are called on a freshly constructed model.  Only calls that
    return make a step.  A [delete_item] that stops with [RecursionError]
    changes nothing in the frames it unwinds, since a frame writes only
    after its loop over the children; what it leaves is the work of the
    nested calls that did return, each a deletion of its own. *)
Inductive reachable_by (allowed : Op → Prop) : OutlineModel → Prop :=
| reachable_init : reachable_by allowed (init clock)
| reachable_step m op fuel m' :
    reachable_by allowed m → allowed op → perform fuel op m = Done tt m' →
    reachable_by allowed m'.

Definition reachable : OutlineModel → Prop := reachable_by (λ _, True).

Lemma reachable_by_reachable allowed m : reachable_by allowed m → reachable m.
Proof. induction 1; [constructor|by econstructor]. Qed.

(** Every timestamp of the object store is a reading already taken. *)
Definition stamps_ok (m : OutlineModel) : Prop :=
  ∀ a it, heap m !! a = Some it → ∃ j, j < ticks m ∧ last_modified it = clock j.

Lemma stamps_ok_evolves m m' : stamps_ok m → evolves clock m m' → stamps_ok m'.
Proof.
  intros Hs [Ht Hold Hnew] a it' Hit'.
  destruct (heap m !! a) as [it|] eqn:Hit.
  - destruct (Hold a it Hit) as (it'' & ? & _ & Hc).
    assert (it'' = it') as -> by congruence.
    destruct Hc as [->|(j & ? & ?)].
    + destruct (Hs a it Hit) as (j & ? & ?). exists j. split; [lia|done].
    + exists j. split; [lia|done].
  - destruct (Hnew a it' Hit' Hit) as (j & ? & ?). exists j. split; [lia|done].
Qed.

Lemma tree_ok_init : tree_ok (init clock).
Proof.
  split.
  - intros k a Ha. simpl in Ha.
    apply lookup_singleton_Some in Ha as [<- <-]. by eexists.
  - intros a it c Hit Hc. simpl in Hit.
    apply list_lookup_singleton_Some in Hit as [_ <-].
    by apply elem_of_nil in Hc.
Qed.

Lemma stamps_ok_init : stamps_ok (init clock).
Proof.
  intros a it Hit. simpl in Hit.
  apply list_lookup_singleton_Some in Hit as [_ <-].
  exists 0. simpl. split; [lia|done].
Qed.

Lemma tree_ok_created parent_path t pa p m :
  tree_ok m → all_items m !! parent_path = Some pa → heap m !! pa = Some p →
  tree_ok (created clock parent_path t pa p m).
Proof.
  intros Hok Hpa Hp.
  pose proof (created_evolves clock parent_path t pa p m Hp) as Hev.
  pose proof (lookup_lt_Some _ _ _ Hp) as Hlt.
  destruct (ok_mapped _ Hok _ _ Hpa) as (p0 & Hp0 & Hurl).
  assert (p0 = p) as -> by congruence.
  split.
  - intros k a Ha. simpl in Ha.
    apply lookup_insert_Some in Ha as [[<- <-]|[Hne Ha]].
    + eexists. split; [by apply created_heap_new|done].
    + destruct (ok_mapped _ Hok _ _ Ha) as (it & Hit & Hu).
      destruct (ev_old _ _ _ Hev _ _ Hit) as (it' & ? & ? & _).
      exists it'. split; [done|congruence].
  - intros a it c Hit Hc.
    assert (∀ c0 it0, heap m !! a = Some it0 → c0 ∈ children it0 → url it0 = url it →
              ∃ cit, heap (created clock parent_path t pa p m) !! c0 = Some cit ∧
                     String.length (url it) < String.length (url cit)) as Hold.
    { intros c0 it0 Hit0 Hc0 Hu.
      destruct (ok_children _ Hok _ _ _ Hit0 Hc0) as (cit & Hcit & Hl).
      destruct (ev_old _ _ _ Hev _ _ Hcit) as (cit' & ? & Hu' & _).
      exists cit'. split; [done|]. rewrite <- Hu, Hu'. done. }
    destruct (created_heap_cases _ _ _ _ _ _ _ _ Hp Hit)
      as [[-> ->]|[[-> ->]|(Hne & _ & Hit0)]]; simpl in *.
    + apply elem_of_app in Hc as [Hc|Hc].
      * by apply (Hold c p).
      * apply list_elem_of_singleton in Hc as ->.
        eexists. split; [by apply created_heap_new|].
        simpl. rewrite Hurl, !str_app_length.
        pose proof (dec_length (length (children p))). simpl. lia.
    + by apply elem_of_nil in Hc.
    + by apply (Hold c it).
Qed.

Lemma updated_shrinks path t a it m :
  heap m !! a = Some it → shrinks m (updated clock path t a it m).
Proof.
  intros Hit. split; simpl; [by rewrite length_insert| |done].
  intros b itb Hb. destruct (decide (a = b)) as [->|Hne].
  - eexists. rewrite list_lookup_insert_eq by (by eapply lookup_lt_Some).
    split; [done|]. by simplify_eq.
  - exists itb. by rewrite list_lookup_insert_ne.
Qed.

Lemma polled_shrinks m : shrinks m (polled clock m).
Proof. split; simpl; [done| |done]. intros a it ?. by exists it. Qed.

(** One operation, from a well-shaped state, leads to a well-shaped state
    and respects [evolves]. *)
Lemma perform_sound fuel op m m' :
  tree_ok m → perform fuel op m = Done tt m' → tree_ok m' ∧ evolves clock m m'.
Proof.
  intros Hok H. destruct op as [pp t|path t|path|since|]; simpl in H.
  - apply bind_Done in H as (v & m1 & H & Hr). unfold ret in Hr. simplify_eq.
    split; [|by eapply create_item_evolves].
    destruct (all_items m !! pp) as [pa|] eqn:Hpa.
    + destruct (ok_mapped _ Hok _ _ Hpa) as (p & Hp & _).
      rewrite (create_item_spec _ _ _ _ _ _ Hpa Hp) in H. simplify_eq.
      by apply tree_ok_created.
    + rewrite create_item_missing in H by done. by simplify_eq.
  - apply bind_Done in H as (v & m1 & H & Hr). unfold ret in Hr. simplify_eq.
    split; [|by eapply update_item_evolves].
    destruct (all_items m !! path) as [a|] eqn:Ha.
    + destruct (ok_mapped _ Hok _ _ Ha) as (it & Hit & _).
      rewrite (update_item_spec _ _ _ _ _ _ Ha Hit) in H. simplify_eq.
      eapply tree_ok_shrinks; [done|by apply updated_shrinks].
    + rewrite update_item_missing in H by done. by simplify_eq.
  - apply bind_Done in H as (v & m1 & H & Hr). unfold ret in Hr. simplify_eq.
    split; [|by eapply delete_item_evolves].
    eapply tree_ok_shrinks; [done|by eapply delete_item_shrinks].
  - apply bind_Done in H as (v & m1 & H & Hr). unfold ret in Hr. simplify_eq.
    rewrite get_updated_items_spec in H by done. simplify_eq.
    split; [|apply polled_evolves].
    eapply tree_ok_shrinks; [done|apply polled_shrinks].
  - unfold clear_updated_items in H. simplify_eq.
    split; [by destruct Hok|by apply evolves_same_heap].
Qed.

Lemma reachable_tree_ok m : reachable m → tree_ok m.
Proof.
  induction 1 as [|m op fuel m' _ IH _ Hstep]; [apply tree_ok_init|].
  by destruct (perform_sound _ _ _ _ IH Hstep).
Qed.

Lemma reachable_stamps_ok m : reachable m → stamps_ok m.
Proof.
  induction 1 as [|m op fuel m' Hr IH _ Hstep]; [apply stamps_ok_init|].
  eapply stamps_ok_evolves; [done|].
  by destruct (perform_sound _ _ _ _ (reachable_tree_ok _ Hr) Hstep).
Qed.

(** In a well-shaped state every operation returns, a deletion when the
    interpreter allows more nested calls than the longest URL is long. *)
Lemma perform_total fuel op m :
  tree_ok m → max_url_length m < fuel → ∃ m', perform fuel op m = Done tt m'.
Proof.
  intros Hok Hfuel. destruct op as [pp t|path t|path|since|]; simpl.
  - destruct (all_items m !! pp) as [pa|] eqn:Hpa.
    + destruct (ok_mapped _ Hok _ _ Hpa) as (p & Hp & _).
      eexists. by rewrite (bind_eq _ _ _ _ _ (create_item_spec _ _ _ _ _ _ Hpa Hp)).
    + eexists. by rewrite (bind_eq _ _ _ _ _ (create_item_missing _ _ _ _ Hpa)).
  - destruct (all_items m !! path) as [a|] eqn:Ha.
    + destruct (ok_mapped _ Hok _ _ Ha) as (it & Hit & _).
      eexists. by rewrite (bind_eq _ _ _ _ _ (update_item_spec _ _ _ _ _ _ Ha Hit)).
    + eexists. by rewrite (bind_eq _ _ _ _ _ (update_item_missing _ _ _ _ Ha)).
  - destruct (delete_item_total clock fuel path m (max_url_length m))
      as (b & m' & H); [done|apply max_url_length_bound|lia..|].
    exists m'. by rewrite (bind_eq _ _ _ _ _ H).
  - eexists. by rewrite (bind_eq _ _ _ _ _ (get_updated_items_spec _ _ _ Hok)).
  - by eexists.
Qed.

End Reachability.

(** ** URLs when nothing is ever deleted *)

Definition ends_with_slash (k : string) : Prop := ∃ q, k = q +:+ "/".

(** A child URL determines the parent URL and the index it was built from. *)
Lemma child_key_inj (k1 k2 : string) (n1 n2 : nat) :
  ends_with_slash k1 → ends_with_slash k2 →
  k1 +:+ dec n1 +:+ "/" = k2 +:+ dec n2 +:+ "/" → k1 = k2 ∧ n1 = n2.
Proof.
  intros [q1 ->] [q2 ->]. rewrite !str_app_assoc. intros H.
  apply child_url_inj in H as [-> Hd]; [|apply dec_slash_free..].
  split; [done|by apply dec_inj].
Qed.

Lemma child_key_longer (k : string) (n : nat) :
  String.length k < String.length (k +:+ dec n +:+ "/").
Proof. rewrite !str_app_length. pose proof (dec_length n). simpl. lia. Qed.

(** The dictionary indexes the tree: a URL of the form [k/n/] is in use
    only if [n] is below the number of children of the object at [k], and
    every URL but the root's is of that form for a URL in use. *)
Record index_ok (m : OutlineModel) : Prop := mkIndexOk {
  ix_tree : tree_ok m;
  ix_shape : ∀ k, is_Some (all_items m !! k) →
    String.length root_url ≤ String.length k ∧ ends_with_slash k;
  ix_child : ∀ k a it n,
    all_items m !! k = Some a → heap m !! a = Some it →
    is_Some (all_items m !! (k +:+ dec n +:+ "/")) → n < length (children it);
  ix_parent : ∀ k, is_Some (all_items m !! k) →
    k = root_url ∨ ∃ q n, k = q +:+ dec n +:+ "/" ∧ is_Some (all_items m !! q)
}.

Section NoDelete.

Variable clock : nat → Z.

Lemma index_ok_init : index_ok (init clock).
Proof.
  split.
  - apply tree_ok_init.
  - intros k [a Ha]. simpl in Ha. apply lookup_singleton_Some in Ha as [<- _].
    split; [done|]. by exists "/outline".
  - intros k a it n Ha _ [b Hb]. simpl in *.
    apply lookup_singleton_Some in Ha as [<- _].
    apply lookup_singleton_Some in Hb as [Hb _].
    pose proof (child_key_longer root_url n) as Hl. rewrite <- Hb in Hl. lia.
  - intros k [a Ha]. simpl in Ha. apply lookup_singleton_Some in Ha as [<- _]. by left.
Qed.

(** The URL [create_item] derives is not in use. *)
Lemma index_ok_fresh m parent_path pa p :
  index_ok m → all_items m !! parent_path = Some pa → heap m !! pa = Some p →
  all_items m !! (parent_path +:+ dec (length (children p)) +:+ "/") = None.
Proof.
  intros Hix Hpa Hp.
  destruct (all_items m !! (parent_path +:+ dec (length (children p)) +:+ "/"))
    as [b|] eqn:Hb; [|done].
  pose proof (ix_child _ Hix _ _ _ (length (children p)) Hpa Hp) as H.
  rewrite Hb in H. specialize (H ltac:(eauto)). lia.
Qed.

Local Abbreviation new_url_of pp p := (pp +:+ dec (length (children p)) +:+ "/").

Lemma index_ok_created parent_path t pa p m :
  index_ok m → all_items m !! parent_path = Some pa → heap m !! pa = Some p →
  index_ok (created clock parent_path t pa p m).
Proof.
  intros Hix Hpa Hp.
  pose proof (index_ok_fresh _ _ _ _ Hix Hpa Hp) as Hfresh.
  destruct (ix_shape _ Hix parent_path ltac:(eauto)) as [Hlen Hend].
  assert (ends_with_slash (new_url_of parent_path p)) as Hend'.
  { exists (parent_path +:+ dec (length (children p))). by rewrite str_app_assoc. }
  pose proof (child_key_longer parent_path (length (children p))) as Hlonger.
  split.
  - by apply tree_ok_created; [apply ix_tree|..].
  - intros k [a Ha]. simpl in Ha.
    apply lookup_insert_Some in Ha as [[<- <-]|[Hne Ha]].
    + split; [lia|exact Hend'].
    + apply (ix_shape _ Hix). eauto.
  - intros k a it n Ha Hit [b Hb]. simpl in Ha, Hb.
    apply lookup_insert_Some in Ha as [[<- <-]|[Hne Ha]].
    + (* the new object has no child URL in use *)
      exfalso.
      apply lookup_insert_Some in Hb as [[Hb _]|[_ Hb]].
      { pose proof (child_key_longer (new_url_of parent_path p) n) as Hl. rewrite <- Hb in Hl. lia. }
      destruct (ix_parent _ Hix _ ltac:(eauto)) as [Hroot|(q & j & Heq & Hq)].
      * pose proof (child_key_longer (new_url_of parent_path p) n) as Hl. rewrite Hroot in Hl. lia.
      * apply child_key_inj in Heq as [<- _]; [|done|by apply (ix_shape _ Hix)].
        destruct Hq as [? Hq]. congruence.
    + destruct (ok_mapped _ (ix_tree _ Hix) _ _ Ha) as (it0 & Hit0 & _).
      assert (a ≠ length (heap m)) as Hnew.
      { apply lookup_lt_Some in Hit0. lia. }
      apply lookup_insert_Some in Hb as [[Hb _]|[_ Hb]].
      * (* the new URL: this is the parent *)
        apply child_key_inj in Hb as [Hk Hn]; [|done|by apply (ix_shape _ Hix); eauto].
        subst k. assert (a = pa) as -> by congruence.
        rewrite created_heap_parent in Hit by done.
        injection Hit as <-. simpl. rewrite length_app. simpl. lia.
      * pose proof (ix_child _ Hix _ _ _ n Ha Hit0 ltac:(eauto)) as Hn.
        destruct (created_heap_cases _ _ _ _ _ _ _ _ Hp Hit)
          as [[-> ->]|[[-> _]|(_ & _ & Hit')]]; [|done|by simplify_eq].
        simpl. simplify_eq. rewrite length_app. lia.
  - intros k [a Ha]. simpl in Ha.
    apply lookup_insert_Some in Ha as [[<- <-]|[Hne Ha]].
    + right. exists parent_path, (length (children p)). split; [done|]. simpl.
      destruct (decide ((new_url_of parent_path p) = parent_path)) as [Heq|Hne'].
      * rewrite Heq. rewrite lookup_insert_eq. eauto.
      * rewrite lookup_insert_ne by done. eauto.
    + destruct (ix_parent _ Hix k ltac:(eauto)) as [?|(q & j & ? & [b Hq])]; [by left|].
      right. exists q, j. split; [done|]. simpl.
      destruct (decide ((new_url_of parent_path p) = q)) as [->|Hne'].
      * rewrite lookup_insert_eq. eauto.
      * rewrite lookup_insert_ne by done. eauto.
Qed.

(** A step that keeps the dictionary and the number of children of every
    object keeps the index. *)
Lemma index_ok_same_tree m m' :
  index_ok m → tree_ok m' → all_items m' = all_items m →
  (∀ a it', heap m' !! a = Some it' →
     ∃ it, heap m !! a = Some it ∧ length (children it) ≤ length (children it')) →
  index_ok m'.
Proof.
  intros Hix Hok Hitems Hheap. split; [done|rewrite Hitems..].
  - apply (ix_shape _ Hix).
  - intros k a it' n Ha Hit' Hb.
    destruct (Hheap a it' Hit') as (it & Hit & Hle).
    pose proof (ix_child _ Hix _ _ _ n Ha Hit Hb). lia.
  - apply (ix_parent _ Hix).
Qed.

Lemma index_ok_perform fuel op m m' :
  ¬ is_delete op → index_ok m → perform clock fuel op m = Done tt m' → index_ok m'.
Proof.
  intros Hnd Hix H. pose proof (ix_tree _ Hix) as Hok.
  destruct (perform_sound _ _ _ _ _ Hok H) as [Hok' _].
  destruct op as [pp t|path t|path|since|]; simpl in H; [| | by destruct Hnd | |].
  - apply bind_Done in H as (v & m1 & H & Hr). unfold ret in Hr. simplify_eq.
    destruct (all_items m !! pp) as [pa|] eqn:Hpa.
    + destruct (ok_mapped _ Hok _ _ Hpa) as (p & Hp & _).
      rewrite (create_item_spec _ _ _ _ _ _ Hpa Hp) in H. simplify_eq.
      by apply index_ok_created.
    + rewrite create_item_missing in H by done. by simplify_eq.
  - apply bind_Done in H as (v & m1 & H & Hr). unfold ret in Hr. simplify_eq.
    destruct (all_items m !! path) as [a|] eqn:Ha.
    + destruct (ok_mapped _ Hok _ _ Ha) as (it & Hit & _).
      rewrite (update_item_spec _ _ _ _ _ _ Ha Hit) in H. simplify_eq.
      eapply index_ok_same_tree; [done..|].
      intros b itb Hb. simpl in Hb. destruct (decide (a = b)) as [->|Hne].
      * rewrite list_lookup_insert_eq in Hb by (by eapply lookup_lt_Some).
        simplify_eq. by exists it.
      * rewrite list_lookup_insert_ne in Hb by done. by exists itb.
    + rewrite update_item_missing in H by done. by simplify_eq.
  - apply bind_Done in H as (v & m1 & H & Hr). unfold ret in Hr. simplify_eq.
    rewrite get_updated_items_spec in H by done. simplify_eq.
    eapply index_ok_same_tree; [done..|]. intros b itb Hb. by exists itb.
  - unfold clear_updated_items in H. simplify_eq.
    eapply index_ok_same_tree; [done..|]. intros b itb Hb. by exists itb.
Qed.

Lemma reachable_index_ok m :
  reachable_by clock (λ op, ¬ is_delete op) m → index_ok m.
Proof.
  induction 1 as [|m op fuel m' _ IH Hop Hstep]; [apply index_ok_init|].
  by eapply index_ok_perform.
Qed.

End NoDelete.

(** ** Clocks *)

(** A clock that never runs backwards. *)
Definition monotone (clock : nat → Z) : Prop :=
  ∀ i j, i ≤ j → (clock i ≤ clock j)%Z.

(** A clock of which no two readings are equal. *)
Definition strictly_monotone (clock : nat → Z) : Prop :=
  ∀ i j, i < j → (clock i < clock j)%Z.

(** One second passes between two readings. *)
Definition second_clock (n : nat) : Z := Z.of_nat n.

(** A coarse clock: every value is read twice before it advances. *)
Definition coarse_clock (n : nat) : Z := Z.of_nat (Nat.div2 n).

(** Two hours pass between two readings. *)
Definition slow_clock (n : nat) : Z := (7200 * Z.of_nat n)%Z.

Lemma second_clock_strict : strictly_monotone second_clock.
Proof. intros i j ?. unfold second_clock. lia. Qed.

Lemma strictly_monotone_monotone clock : strictly_monotone clock → monotone clock.
Proof.
  intros Hs i j Hij. destruct (decide (i = j)) as [->|]; [done|].
  apply Z.lt_le_incl, Hs. lia.
Qed.

Lemma second_clock_monotone : monotone second_clock.
Proof. apply strictly_monotone_monotone, second_clock_strict. Qed.

(** ** The properties of the store *)

(** C1.  [create_item] under a URL that leads to an object returns a new
    object whose URL is the parent URL, the number of children the parent
    had, and a slash; the new object carries the given text, is appended
    to the children of the parent, is entered in the dictionary under its
    URL, and both URLs are added to the dirty set.  Under a URL that leads
    nowhere it returns [None] and changes nothing. *)
Theorem create_item_correct (clock : nat → Z) (m : OutlineModel)
    (parent_path t : string) :
  (∀ pa p, all_items m !! parent_path = Some pa → heap m !! pa = Some p →
     let new_url := parent_path +:+ dec (length (children p)) +:+ "/" in
     ∃ a m',
       create_item clock parent_path t m = Done (Some a) m' ∧
       heap m !! a = None ∧
       heap m' !! a = Some (mkItem new_url t [] (clock (ticks m))) ∧
       (∃ p', heap m' !! pa = Some p' ∧ children p' = children p ++ [a] ∧
              url p' = url p ∧ text p' = text p) ∧
       (∀ b, b ≠ a → b ≠ pa → heap m' !! b = heap m !! b) ∧
       all_items m' = <[new_url := a]> (all_items m) ∧
       updated_items m' = {[ parent_path ]} ∪ ({[ new_url ]} ∪ updated_items m)) ∧
  (all_items m !! parent_path = None →
     create_item clock parent_path t m = Done None m).
Proof.
  split; [|apply create_item_missing].
  intros pa p Hpa Hp new_url.
  exists (length (heap m)), (created clock parent_path t pa p m).
  split; [by apply create_item_spec|].
  split; [by apply lookup_ge_None|].
  split; [by apply created_heap_new|].
  split; [eexists; split; [by apply created_heap_parent|done]|].
  split; [intros b ??; by apply created_heap_other|].
  split; done.
Qed.

Lemma create_item_correct_witness :
  ∃ a m',
    create_item second_clock "/outline/" "A" (init second_clock) = Done (Some a) m' ∧
    all_items m' !! "/outline/0/" = Some a.
Proof.
  destruct (create_item_correct second_clock (init second_clock) "/outline/" "A")
    as [H _].
  destruct (H 0 (mkItem "/outline/" "My Outline" [] 0%Z) eq_refl eq_refl)
    as (a & m' & Hrun & _ & _ & _ & _ & Hitems & _).
  exists a, m'. split; [exact Hrun|]. rewrite Hitems. apply lookup_insert_eq.
Defined.

(** C3.  [delete_item] returns [False] exactly when the URL is the root's
    or leads nowhere, and then the whole state is as it was.  In a
    reachable state the call returns whenever the interpreter allows
    enough nested calls, more than the longest URL exceeds [path] in
    length; for any other URL it then returns [True]. *)
Theorem delete_item_refuses (clock : nat → Z) (m : OutlineModel) (path : string) :
  (path = root_url ∨ all_items m !! path = None →
     ∀ fuel, delete_item clock (S fuel) path m = Done false m) ∧
  (∀ fuel b m', delete_item clock fuel path m = Done b m' →
     (b = false ↔ path = root_url ∨ all_items m !! path = None) ∧
     (b = false → m' = m)) ∧
  (reachable clock m →
     ∀ fuel, 0 < fuel → max_url_length m < String.length path + fuel →
     ∃ b m', delete_item clock fuel path m = Done b m').
Proof.
  split; [intros H fuel; by apply (delete_item_refused clock)|]. split.
  - intros fuel b m' H.
    apply (delete_item_Done clock) in H
      as [(-> & -> & Hc)|(-> & Hne & f & a & it & m1 & v & m2 & _ & Ha & _)].
    + done.
    + split; [|done]. split; [done|]. intros [?|Hn]; [done|congruence].
  - intros Hr fuel Hpos Hfuel.
    apply (delete_item_total clock fuel path m (max_url_length m));
      [by apply (reachable_tree_ok clock)|apply max_url_length_bound|done..].
Qed.

Lemma delete_item_refuses_witness :
  delete_item second_clock 1 "/outline/" (init second_clock)
  = Done false (init second_clock) ∧
  ∃ b m', delete_item second_clock 1 "/outline/" (init second_clock) = Done b m'.
Proof.
  destruct (delete_item_refuses second_clock (init second_clock) "/outline/")
    as (H & _ & Hret).
  split; [apply H; left; reflexivity|].
  apply Hret; [apply reachable_init|lia|vm_compute; lia].
Defined.

(** C4, as stated, fails on a clock that returns the same value twice:
    right after the model is constructed an update of the root leaves its
    [last_modified] equal to what it was. *)
Lemma update_item_stalled_clock :
  ∃ it it' m',
    heap (init coarse_clock) !! 0 = Some it ∧
    update_item coarse_clock "/outline/" "New" (init coarse_clock) = Done (Some 0) m' ∧
    heap m' !! 0 = Some it' ∧
    ¬ (last_modified it < last_modified it')%Z.
Proof.
  eexists _, _, _. split; [reflexivity|]. split; [reflexivity|].
  split; [reflexivity|]. simpl. unfold coarse_clock. simpl. lia.
Qed.

(** C4, amended.  [update_item] returns [None] exactly when the URL leads
    nowhere, and then the state is as it was.  Otherwise it returns the
    object, whose text is the given one and whose [last_modified] is the
    clock reading taken by the call; the URL is added to the dirty set and
    nothing else changes.  In a reachable state the new [last_modified] is
    not below the old one when the clock is monotone, and above it when no
    two readings of the clock are equal. *)
Theorem update_item_correct (clock : nat → Z) (m : OutlineModel) (path t : string) :
  (all_items m !! path = None → update_item clock path t m = Done None m) ∧
  (∀ a it, all_items m !! path = Some a → heap m !! a = Some it →
     ∃ m',
       update_item clock path t m = Done (Some a) m' ∧
       heap m' !! a = Some (mkItem (url it) t (children it) (clock (ticks m))) ∧
       (∀ b, b ≠ a → heap m' !! b = heap m !! b) ∧
       length (heap m') = length (heap m) ∧
       all_items m' = all_items m ∧
       updated_items m' = {[ path ]} ∪ updated_items m ∧
       root m' = root m ∧ item_count m' = item_count m ∧
       (reachable clock m → monotone clock →
          (last_modified it ≤ clock (ticks m))%Z) ∧
       (reachable clock m → strictly_monotone clock →
          (last_modified it < clock (ticks m))%Z)) ∧
  (∀ v m', update_item clock path t m = Done v m' →
     (v = None ↔ all_items m !! path = None)).
Proof.
  split; [apply update_item_missing|]. split.
  - intros a it Ha Hit. exists (updated clock path t a it m).
    split; [by apply update_item_spec|]. simpl.
    split; [apply list_lookup_insert_eq; by eapply lookup_lt_Some|].
    split; [intros b ?; by apply list_lookup_insert_ne|].
    split; [by rewrite length_insert|].
    do 4 (split; [done|]).
    split; intros Hr Hmono;
      destruct (reachable_stamps_ok clock _ Hr _ _ Hit) as (j & Hj & ->).
    + apply Hmono. lia.
    + by apply Hmono.
  - intros v m' H. destruct (all_items m !! path) as [a|] eqn:Ha.
    + destruct (heap m !! a) as [it|] eqn:Hit.
      * rewrite (update_item_spec _ _ _ _ _ _ Ha Hit) in H. by simplify_eq.
      * unfold update_item, bind, get_item, modify in H. by rewrite Ha, Hit in H.
    + rewrite update_item_missing in H by done. by simplify_eq.
Qed.

Lemma update_item_correct_witness :
  ∃ m',
    update_item second_clock "/outline/" "New" (init second_clock) = Done (Some 0) m' ∧
    heap m' !! 0 = Some (mkItem "/outline/" "New" [] 1%Z) ∧
    (0 < 1)%Z.
Proof.
  destruct (update_item_correct second_clock (init second_clock) "/outline/" "New")
    as (_ & H & _).
  destruct (H 0 (mkItem "/outline/" "My Outline" [] 0%Z) eq_refl eq_refl)
    as (m' & Hrun & Hit & _ & _ & _ & _ & _ & _ & _ & Hstrict).
  exists m'. split; [exact Hrun|]. split; [exact Hit|].
  apply Hstrict; [apply reachable_init|apply second_clock_strict].
Defined.

Lemma filter_none {A} (P : A → Prop) `{!∀ x, Decision (P x)} (l : list A) :
  (∀ x, x ∈ l → ¬ P x) → filter P l = [].
Proof.
  induction l as [|x l IH]; intros Hl; [done|].
  rewrite filter_cons_False by (apply Hl; left).
  apply IH. intros y Hy. apply Hl. by right.
Qed.

(** A clock that is set back: the first three readings are 100, 101 and
    102, the fourth is 53. *)
Definition set_back_clock (n : nat) : Z :=
  if decide (n < 3) then (100 + Z.of_nat n)%Z else (50 + Z.of_nat n)%Z.

(** C5, as stated, fails when the clock is set back between a change and
    the poll.  A child of the root is created at readings 101 and 102; the
    first poll reads 53 and returns both URLs; a second poll with [since]
    that reading, and nothing in between, returns both URLs again. *)
Lemma get_updated_items_clock_set_back :
  ∃ m r m' r' m'',
    create_item set_back_clock "/outline/" "A" (init set_back_clock) = Done (Some 1) m ∧
    reachable set_back_clock m ∧
    get_updated_items set_back_clock 0 m = Done r m' ∧
    set_back_clock (ticks m) = 53%Z ∧
    get_updated_items set_back_clock (set_back_clock (ticks m)) m' = Done r' m'' ∧
    "/outline/0/" ∈ r' ∧ "/outline/" ∈ r' ∧ r' ≠ [].
Proof.
  pose proof (create_item_spec set_back_clock "/outline/" "A" (init set_back_clock) 0
                (mkItem "/outline/" "My Outline" [] 100%Z) eq_refl eq_refl) as Hrun.
  eexists _, _, _, _, _. split; [exact Hrun|].
  split.
  { apply (reachable_step _ _ _ (CreateItem "/outline/" "A") 0 _ (reachable_init _ _) I).
    simpl. by rewrite (bind_eq _ _ _ _ _ Hrun). }
  split; [vm_compute; reflexivity|].
  split; [reflexivity|].
  split; [vm_compute; reflexivity|].
  split; [|split]; [set_solver..|done].
Qed.

(** C5, amended.  In a reachable state [get_updated_items since] returns,
    without repetition, exactly the URLs of the dirty set that lead to an
    object whose [last_modified] is above [since]; a URL of the dirty set
    that leads nowhere is not returned.  When the clock is monotone, a
    second call, with [since] the reading the first call took and nothing
    in between, returns the empty list. *)
Theorem get_updated_items_correct (clock : nat → Z) (m : OutlineModel) (since : Z) :
  reachable clock m →
  ∃ r m',
    get_updated_items clock since m = Done r m' ∧
    NoDup r ∧
    (∀ u, u ∈ r ↔
       u ∈ updated_items m ∧
       ∃ a it, all_items m !! u = Some a ∧ heap m !! a = Some it ∧
               (since < last_modified it)%Z) ∧
    (∀ u, all_items m !! u = None → u ∉ r) ∧
    (monotone clock →
       ∃ m'', get_updated_items clock (clock (ticks m)) m' = Done [] m'').
Proof.
  intros Hr.
  pose proof (reachable_tree_ok clock _ Hr) as Hok.
  pose proof (reachable_stamps_ok clock _ Hr) as Hst.
  eexists _, _. split; [by apply get_updated_items_spec|].
  split; [apply NoDup_filter, NoDup_elements|].
  split.
  { intros u. rewrite list_elem_of_filter, elem_of_elements, changed_since_iff. tauto. }
  split.
  { intros u Hnone (Hch & _)%list_elem_of_filter.
    apply changed_since_iff in Hch as (a & it & Ha & _). congruence. }
  intros Hmono.
  assert (tree_ok (polled clock m)) as Hok'.
  { eapply tree_ok_shrinks; [done|apply polled_shrinks]. }
  eexists. rewrite get_updated_items_spec by done. f_equal.
  apply filter_none. intros u _ (a & it & _ & Hit & Hlt)%changed_since_iff.
  simpl in Hit. destruct (Hst a it Hit) as (j & Hj & Heq).
  rewrite Heq in Hlt. specialize (Hmono j (ticks m) ltac:(lia)). lia.
Qed.

(** After a child of the root is created, a poll returns the URL of the
    child and the URL of the root, and a second poll finds nothing. *)
Lemma get_updated_items_correct_witness :
  ∃ m r m',
    create_item second_clock "/outline/" "A" (init second_clock) = Done (Some 1) m ∧
    get_updated_items second_clock 0 m = Done r m' ∧
    "/outline/0/" ∈ r ∧ "/outline/" ∈ r ∧
    ∃ m'', get_updated_items second_clock (second_clock (ticks m)) m' = Done [] m''.
Proof.
  pose proof (create_item_spec second_clock "/outline/" "A" (init second_clock) 0
                (mkItem "/outline/" "My Outline" [] 0%Z) eq_refl eq_refl) as Hrun.
  eassert (reachable second_clock _) as Hreach.
  { apply (reachable_step _ _ _ (CreateItem "/outline/" "A") 0 _ (reachable_init _ _) I).
    simpl. rewrite (bind_eq _ _ _ _ _ Hrun). reflexivity. }
  destruct (get_updated_items_correct second_clock _ 0 Hreach)
    as (r & m' & Hpoll & _ & Hin & _ & Hagain).
  eexists.
  exists r, m'. split; [exact Hrun|]. split; [exact Hpoll|].
  split; [|split; [|exact (Hagain second_clock_monotone)]].
  - apply Hin. split.
    + simpl. apply elem_of_union_r, elem_of_union_l, elem_of_singleton. reflexivity.
    + eexists 1, _. split; [reflexivity|]. split; [reflexivity|]. reflexivity.
  - apply Hin. split.
    + simpl. apply elem_of_union_l, elem_of_singleton. reflexivity.
    + eexists 0, _. split; [reflexivity|]. split; [reflexivity|]. reflexivity.
Defined.

(** C8.  In a state reached without any [delete_item], the URL that
    [create_item] gives the new object was not in the dictionary. *)
Theorem create_item_fresh_url (clock : nat → Z) (m : OutlineModel)
    (parent_path t : string) (a : addr) (m' : OutlineModel) :
  reachable_by clock (λ op, ¬ is_delete op) m →
  create_item clock parent_path t m = Done (Some a) m' →
  ∃ it, heap m' !! a = Some it ∧
        all_items m !! url it = None ∧ all_items m' !! url it = Some a.
Proof.
  intros Hr H. pose proof (reachable_index_ok clock _ Hr) as Hix.
  destruct (all_items m !! parent_path) as [pa|] eqn:Hpa; last first.
  { rewrite create_item_missing in H by done. by simplify_eq. }
  destruct (ok_mapped _ (ix_tree _ Hix) _ _ Hpa) as (p & Hp & _).
  rewrite (create_item_spec _ _ _ _ _ _ Hpa Hp) in H. simplify_eq.
  eexists. split; [by apply created_heap_new|]. simpl.
  split; [by eapply index_ok_fresh|apply lookup_insert_eq].
Qed.

Lemma create_item_fresh_url_witness :
  ∃ it m',
    create_item second_clock "/outline/" "A" (init second_clock) = Done (Some 1) m' ∧
    heap m' !! 1 = Some it ∧
    all_items (init second_clock) !! url it = None.
Proof.
  pose proof (create_item_spec second_clock "/outline/" "A" (init second_clock) 0
                (mkItem "/outline/" "My Outline" [] 0%Z) eq_refl eq_refl) as Hrun.
  destruct (create_item_fresh_url second_clock (init second_clock) "/outline/" "A" _ _
              (reachable_init _ _) Hrun) as (it & Hit & Hfresh & _).
  eexists it, _. split; [exact Hrun|]. split; [exact Hit|exact Hfresh].
Defined.





(** ** Runs of the program *)

(** The objects that can be reached from the root through [children]. *)
Inductive in_tree (m : OutlineModel) : addr → Prop :=
| in_tree_root : in_tree m (root m)
| in_tree_child a it c :
    in_tree m a → heap m !! a = Some it → c ∈ children it → in_tree m c.

(** A sequence of calls from a freshly constructed model. *)
Definition run_ops (clock : nat → Z) (fuel : nat) (ops : list Op) : outcome unit :=
  for_each (perform clock fuel) ops (init clock).

Lemma for_each_reachable clock fuel ops : ∀ m m',
  reachable clock m → for_each (perform clock fuel) ops m = Done tt m' →
  reachable clock m'.
Proof.
  induction ops as [|op ops IH]; intros m m' Hr H; simpl in H.
  - unfold ret in H. by simplify_eq.
  - apply bind_Done in H as ([] & m1 & H1 & H2).
    eapply IH; [|done]. by eapply reachable_step.
Qed.

Lemma run_ops_reachable clock fuel ops m :
  run_ops clock fuel ops = Done tt m → reachable clock m.
Proof. apply for_each_reachable, reachable_init. Qed.

(** C10.  Two children are created under the root, the first is deleted,
    and a third is created: the third gets the URL of the second, which
    still exists; the dictionary entry of that URL now leads to the third
    object, and the children of the root are two objects with one URL. *)
Theorem create_item_collides :
  ∃ m1 m2 m3 m4 itb itc,
    create_item second_clock "/outline/" "A" (init second_clock) = Done (Some 1) m1 ∧
    create_item second_clock "/outline/" "B" m1 = Done (Some 2) m2 ∧
    delete_item second_clock 1 "/outline/0/" m2 = Done true m3 ∧
    all_items m3 !! "/outline/1/" = Some 2 ∧
    create_item second_clock "/outline/" "C" m3 = Done (Some 3) m4 ∧
    heap m4 !! 2 = Some itb ∧ heap m4 !! 3 = Some itc ∧
    url itb = "/outline/1/" ∧ url itc = "/outline/1/" ∧
    text itb = "B" ∧ text itc = "C" ∧
    all_items m4 !! "/outline/1/" = Some 3 ∧
    children <$> heap m4 !! root m4 = Some [2; 3] ∧
    to_dict (root m4) m4
    = Done ("/outline/", "My Outline", ["/outline/1/"; "/outline/1/"]) m4.
Proof.
  eexists _, _, _, _, _, _.
  split; [vm_compute; reflexivity|].
  split; [vm_compute; reflexivity|].
  split; [vm_compute; reflexivity|].
  split; [vm_compute; reflexivity|].
  split; [vm_compute; reflexivity|].
  split; [vm_compute; reflexivity|].
  split; [vm_compute; reflexivity|].
  repeat (split; [reflexivity|]). vm_compute. reflexivity.
Qed.

Ltac by_computation :=
  lazymatch goal with
  | |- ?P => apply (bool_decide_unpack P); vm_compute; exact I
  end.

(** Create [/outline/0/] with children [/outline/0/0/] and [/outline/0/1/],
    give the latter a child, delete the former, create a third child
    (which takes the URL [/outline/0/1/] again) and delete that URL. *)
Definition collision_ops : list Op :=
  [ CreateItem "/outline/" "P";
    CreateItem "/outline/0/" "A";
    CreateItem "/outline/0/" "B";
    CreateItem "/outline/0/1/" "D";
    DeleteItem "/outline/0/0/";
    CreateItem "/outline/0/" "C";
    DeleteItem "/outline/0/1/" ].

(** Create a child of the root and delete it. *)
Definition create_delete_ops : list Op :=
  [ CreateItem "/outline/" "A"; DeleteItem "/outline/0/" ].

Lemma in_tree_leaf_root m a it :
  heap m !! root m = Some it → children it = [] → in_tree m a → a = root m.
Proof.
  intros Hit Hnil. induction 1 as [|a' it' c _ -> Hit' Hc]; [done|].
  assert (it' = it) as -> by congruence. rewrite Hnil in Hc.
  by apply elem_of_nil in Hc.
Qed.

(** An entry of the dirty set whose URL leads nowhere survives every
    sweep. *)
Lemma unresolved_entry_survives clock m u :
  tree_ok m → all_items m !! u = None → u ∈ updated_items m →
  u ∈ updated_items (polled clock m).
Proof.
  intros Hok Hnone Hu. simpl. apply elem_of_swept. split; [done|].
  intros (a & it & Ha & _)%expired_iff. congruence.
Qed.

(** What [delete_item] does achieve in a reachable state, when the
    interpreter allows enough nested calls: for a URL other than the
    root's that leads to an object it returns [True], the URL is no longer
    in the dictionary, and the parent URL is in the dirty set. *)
Lemma delete_item_accepts (clock : nat → Z) (m : OutlineModel) (path : string)
    (fuel : nat) :
  reachable clock m → path ≠ root_url → is_Some (all_items m !! path) →
  max_url_length m < String.length path + fuel →
  ∃ m', delete_item clock fuel path m = Done true m' ∧
        all_items m' !! path = None ∧
        parent_path_of path ∈ updated_items m'.
Proof.
  intros Hr Hne [a Ha] Hfuel.
  pose proof (reachable_tree_ok clock _ Hr) as Hok.
  destruct (ok_mapped _ Hok _ _ Ha) as (it0 & Hit0 & Hurl0).
  pose proof (max_url_length_bound m _ _ Hit0) as Hlen. rewrite Hurl0 in Hlen.
  destruct (delete_item_total clock fuel path m (max_url_length m))
    as (b & m' & H); [done|apply max_url_length_bound|lia..|].
  exists m'. pose proof H as H'.
  apply (delete_item_Done clock) in H'
    as [(_ & _ & [?|Hn])|(-> & _ & f & a' & it & m1 & v & m2 & _ & _ & _ & _ & _ & _ & ->)];
    [done|congruence|].
  split; [done|]. simpl. split; [apply lookup_delete_eq|].
  apply elem_of_union_l, elem_of_singleton. done.
Qed.

(** The sweep of [get_updated_items] removes every entry whose object is
    older than the retention window. *)
Lemma expired_entry_swept (clock : nat → Z) (m : OutlineModel) (u : string) :
  expired m (clock (ticks m) - 3600) u → u ∉ updated_items (polled clock m).
Proof. intros He Hin. simpl in Hin. apply elem_of_swept in Hin as [_ Hn]. done. Qed.

(** C2 on a run with a URL collision.  After [collision_ops] the object
    under [/outline/0/] has the child B, which has the child D under
    [/outline/0/1/0/]; [delete_item "/outline/0/"] returns [True] and
    [get_item "/outline/0/1/0/"] still finds D.  And in the state of C10,
    after [delete_item "/outline/1/"] the children of the root, as
    [to_dict] lists them, still contain [/outline/1/]. *)
Theorem delete_item_misses_descendant :
  (∃ m7 m8 p b d,
     run_ops second_clock 3 collision_ops = Done tt m7 ∧
     all_items m7 !! "/outline/0/" = Some 1 ∧
     heap m7 !! 1 = Some p ∧ 3 ∈ children p ∧
     heap m7 !! 3 = Some b ∧ 4 ∈ children b ∧
     heap m7 !! 4 = Some d ∧ url d = "/outline/0/1/0/" ∧
     delete_item second_clock 3 "/outline/0/" m7 = Done true m8 ∧
     get_item "/outline/0/" m8 = Done None m8 ∧
     get_item "/outline/0/1/0/" m8 = Done (Some 4) m8) ∧
  (∃ m4 m5,
     run_ops second_clock 3
       [ CreateItem "/outline/" "A"; CreateItem "/outline/" "B";
         DeleteItem "/outline/0/"; CreateItem "/outline/" "C" ] = Done tt m4 ∧
     all_items m4 !! "/outline/1/" = Some 3 ∧
     delete_item second_clock 3 "/outline/1/" m4 = Done true m5 ∧
     to_dict (root m5) m5 = Done ("/outline/", "My Outline", ["/outline/1/"]) m5).
Proof.
  split.
  - eexists _, _, _, _, _.
    split; [vm_compute; reflexivity|].
    split; [vm_compute; reflexivity|].
    split; [vm_compute; reflexivity|].
    split; [by_computation|].
    split; [vm_compute; reflexivity|].
    split; [by_computation|].
    split; [vm_compute; reflexivity|].
    split; [reflexivity|].
    split; [vm_compute; reflexivity|].
    split; vm_compute; reflexivity.
  - eexists _, _.
    split; [vm_compute; reflexivity|].
    split; [vm_compute; reflexivity|].
    split; vm_compute; reflexivity.
Qed.

(** C6 on a run in which a node is created and deleted, two hours passing
    between any two clock readings.  The dirty set then holds the URL of
    the deleted node, which leads nowhere.  [get_updated_items] sweeps the
    entry of the root, which is old enough, and keeps the entry of the
    deleted node, call after call. *)
Theorem deleted_entry_never_swept :
  ∃ m2 r m3 r' m4,
    run_ops slow_clock 1 create_delete_ops = Done tt m2 ∧
    "/outline/0/" ∈ updated_items m2 ∧ "/outline/" ∈ updated_items m2 ∧
    all_items m2 !! "/outline/0/" = None ∧
    (∀ j, j < ticks m2 → (slow_clock j < slow_clock (ticks m2) - 3600)%Z) ∧
    get_updated_items slow_clock 0 m2 = Done r m3 ∧
    r = ["/outline/"] ∧
    ("/outline/" ∉ updated_items m3) ∧ "/outline/0/" ∈ updated_items m3 ∧
    get_updated_items slow_clock 0 m3 = Done r' m4 ∧
    r' = [] ∧ "/outline/0/" ∈ updated_items m4.
Proof.
  eexists _, _, _, _, _.
  split; [vm_compute; reflexivity|].
  split; [by_computation|].
  split; [by_computation|].
  split; [vm_compute; reflexivity|].
  split; [intros j Hj; simpl in Hj; unfold slow_clock; simpl; lia|].
  split; [vm_compute; reflexivity|].
  split; [reflexivity|].
  split; [by_computation|].
  split; [by_computation|].
  split; [vm_compute; reflexivity|].
  split; [reflexivity|by_computation].
Qed.

(** C7 on the run [collision_ops].  The state it ends in is reachable;
    the object B is a child of a child of the root, and neither its URL
    nor the object itself is in the dictionary.  After one more
    [delete_item], of [/outline/0/], the dictionary still holds the object
    D under [/outline/0/1/0/], and D cannot be reached from the root. *)
Theorem orphans_after_collision :
  ∃ m7 m8 b,
    run_ops second_clock 3 collision_ops = Done tt m7 ∧
    reachable second_clock m7 ∧
    in_tree m7 3 ∧ heap m7 !! 3 = Some b ∧ url b = "/outline/0/1/" ∧
    all_items m7 !! "/outline/0/1/" = None ∧
    (∀ k, all_items m7 !! k ≠ Some 3) ∧
    run_ops second_clock 3 (collision_ops ++ [DeleteItem "/outline/0/"]) = Done tt m8 ∧
    reachable second_clock m8 ∧
    all_items m8 !! "/outline/0/1/0/" = Some 4 ∧
    ¬ in_tree m8 4.
Proof.
  eexists _, _, _.
  split; [vm_compute; reflexivity|].
  split; [apply (run_ops_reachable _ 3 collision_ops); vm_compute; reflexivity|].
  split.
  { eapply (in_tree_child _ 1); [|vm_compute; reflexivity|by_computation].
    eapply (in_tree_child _ 0); [apply in_tree_root|vm_compute; reflexivity|].
    by_computation. }
  split; [vm_compute; reflexivity|].
  split; [reflexivity|].
  split; [vm_compute; reflexivity|].
  split.
  { intros k Hk. apply elem_of_map_to_list in Hk.
    apply (list_elem_of_fmap_2 snd) in Hk. revert Hk.
    by_computation. }
  split; [vm_compute; reflexivity|].
  split.
  { apply (run_ops_reachable _ 3 (collision_ops ++ [DeleteItem "/outline/0/"])).
    vm_compute; reflexivity. }
  split; [vm_compute; reflexivity|].
  intros Hin. eapply in_tree_leaf_root in Hin; [|vm_compute; reflexivity|reflexivity].
  discriminate Hin.
Qed.

(** ** Serialisation *)

(** In a well-shaped state [to_dict] returns the URL, the text and the
    URLs of the children, in the order of the children. *)
Lemma to_dict_spec (m : OutlineModel) (a : addr) (it : OutlineItem) :
  tree_ok m → heap m !! a = Some it →
  ∃ us, to_dict a m = Done (url it, text it, us) m ∧
        Forall2 (λ c u, url <$> heap m !! c = Some u) (children it) us.
Proof.
  intros Hok Hit. unfold to_dict, bind, deref. rewrite Hit.
  destruct (mapM (λ c, url <$> heap m !! c) (children it)) as [us|] eqn:E.
  - exists us. split; [done|]. by apply mapM_Some.
  - exfalso. apply eq_None_not_Some in E. apply E, mapM_is_Some.
    apply Forall_forall. intros c Hc.
    destruct (ok_children _ Hok _ _ _ Hit Hc) as (cit & Hcit & _).
    simpl. rewrite Hcit. by eexists.
Qed.

(** ** What a deletion leaves alone *)

(** [steady m m']: the root, the counter and the dictionary entry of the
    root URL are the same, the dirty set has only grown, and every object
    has its text and a sublist of its children. *)
Record steady (m m' : OutlineModel) : Prop := mkSteady {
  st_root : root m' = root m;
  st_count : item_count m' = item_count m;
  st_root_entry : all_items m' !! root_url = all_items m !! root_url;
  st_dirty : updated_items m ⊆ updated_items m';
  st_heap : ∀ a it, heap m !! a = Some it →
    ∃ it', heap m' !! a = Some it' ∧ text it' = text it ∧
           children it' `sublist_of` children it
}.

Global Instance steady_preorder : PreOrder steady.
Proof.
  split.
  - intros m. split; try done. intros a it ?. by exists it.
  - intros m1 m2 m3 [R12 C12 E12 D12 H12] [R23 C23 E23 D23 H23].
    split; [congruence..|by etrans|].
    intros a it Hit.
    destruct (H12 a it Hit) as (it2 & Hit2 & Ht2 & Hc2).
    destruct (H23 a it2 Hit2) as (it3 & Hit3 & Ht3 & Hc3).
    exists it3. split; [done|]. split; [congruence|by etrans].
Qed.

Lemma remove_first_sublist (x : addr) (l : list addr) : remove_first x l `sublist_of` l.
Proof.
  induction l as [|y l IH]; simpl; [done|].
  destruct (decide (x = y)); [by apply sublist_cons|by apply sublist_skip].
Qed.

Section DeletionFrame.

Variable clock : nat → Z.

Lemma detach_steady path a m v m' : detach clock path a m = Done v m' → steady m m'.
Proof.
  unfold detach, bind, get_item.
  destruct (all_items m !! parent_path_of path) as [pa|]; last first.
  { unfold ret. intros; by simplify_eq. }
  intros H. destruct (heap m !! pa) as [p|] eqn:Hp; last first.
  { unfold remove_child, bind, deref in H. by rewrite Hp in H. }
  rewrite (remove_child_spec _ _ _ _ _ Hp) in H.
  case_decide; simplify_eq; [|done].
  split; simpl; try done.
  intros b itb Hb. destruct (decide (pa = b)) as [->|Hne].
  - eexists. rewrite list_lookup_insert_eq by (by eapply lookup_lt_Some).
    split; [done|]. simplify_eq. split; [done|]. apply remove_first_sublist.
  - exists itb. by rewrite list_lookup_insert_ne.
Qed.

Lemma forget_steady path m : path ≠ root_url → steady m (forget path m).
Proof.
  intros Hne. split; simpl; try done.
  - by rewrite lookup_delete_ne.
  - apply union_subseteq_r.
  - intros a it ?. by exists it.
Qed.

Lemma delete_item_steady (fuel : nat) : ∀ path m b m',
  delete_item clock fuel path m = Done b m' → steady m m'.
Proof.
  induction fuel as [|fuel IH]; intros path m b m' H; [done|].
  apply (delete_item_Done clock) in H
    as [(_ & -> & _)|(_ & Hne & f & a & it & m1 & v & m2 & Hf & _ & _ & H1 & H2 & _ & ->)];
    [done|].
  simplify_eq. etrans; [|etrans; [by eapply detach_steady|by apply forget_steady]].
  eapply for_each_respects; [apply _| |exact H1].
  intros x mc vc mc' _ Hx. apply bind_Done in Hx as (c & ? & Hd & Hx).
  unfold deref in Hd. destruct (heap mc !! x); simplify_eq. by eapply IH.
Qed.

End DeletionFrame.

(** ** More of the shape of reachable stores *)

(** Every URL of the dictionary is at least as long as the root URL and
    ends with a slash; the root URL leads to the root object; no object
    occurs twice among the children of an object; the counter is the
    number of objects besides the root. *)
Record sound (m : OutlineModel) : Prop := mkSound {
  so_tree : tree_ok m;
  so_keys : ∀ k, is_Some (all_items m !! k) →
    String.length root_url ≤ String.length k ∧ ends_with_slash k;
  so_root : all_items m !! root_url = Some (root m);
  so_nodup : ∀ a it, heap m !! a = Some it → NoDup (children it);
  so_count : S (item_count m) = length (heap m)
}.

Section Soundness.

Variable clock : nat → Z.

Lemma sound_init : sound (init clock).
Proof.
  split.
  - apply tree_ok_init.
  - intros k [a Ha]. simpl in Ha. apply lookup_singleton_Some in Ha as [<- _].
    split; [done|]. by exists "/outline".
  - done.
  - intros a it Hit. simpl in Hit.
    apply list_lookup_singleton_Some in Hit as [_ <-]. constructor.
  - done.
Qed.

Lemma sound_created parent_path t pa p m :
  sound m → all_items m !! parent_path = Some pa → heap m !! pa = Some p →
  sound (created clock parent_path t pa p m).
Proof.
  intros Hs Hpa Hp.
  destruct (so_keys _ Hs parent_path ltac:(eauto)) as [Hlen Hend].
  pose proof (child_key_longer parent_path (length (children p))) as Hlonger.
  split.
  - by apply tree_ok_created; [apply so_tree|..].
  - intros k [a Ha]. simpl in Ha.
    apply lookup_insert_Some in Ha as [[<- <-]|[Hne Ha]].
    + split; [lia|]. exists (parent_path +:+ dec (length (children p))).
      by rewrite str_app_assoc.
    + apply (so_keys _ Hs). eauto.
  - simpl. rewrite lookup_insert_ne; [apply (so_root _ Hs)|].
    intros Heq. rewrite Heq in Hlonger. lia.
  - intros a it Hit.
    destruct (created_heap_cases _ _ _ _ _ _ _ _ Hp Hit)
      as [[-> ->]|[[-> ->]|(_ & _ & Hit')]]; simpl.
    + apply NoDup_app. split; [by apply (so_nodup _ Hs pa)|].
      split; [|apply NoDup_singleton].
      intros c Hc ->%list_elem_of_singleton.
      destruct (ok_children _ (so_tree _ Hs) _ _ _ Hp Hc) as (cit & Hcit & _).
      apply lookup_lt_Some in Hcit. lia.
    + constructor.
    + by apply (so_nodup _ Hs a).
  - simpl. rewrite length_insert, length_app. simpl.
    pose proof (so_count _ Hs). lia.
Qed.

(** A step that keeps the root, the counter, the root entry, the size of
    the object store and the URLs of the dictionary, and that leaves every
    object a sublist of its children, keeps the shape. *)
Lemma sound_shrinks m m' :
  sound m → shrinks m m' → steady m m' → sound m'.
Proof.
  intros Hs Hsh Hst. split.
  - eapply tree_ok_shrinks; [apply (so_tree _ Hs)|done].
  - intros k [a Ha]. apply (so_keys _ Hs).
    exists a. eapply lookup_weaken; [done|apply (sh_items _ _ Hsh)].
  - rewrite (st_root _ _ Hst), (st_root_entry _ _ Hst). apply (so_root _ Hs).
  - intros a it' Hit'.
    destruct (heap m !! a) as [it|] eqn:Hit; last first.
    { apply lookup_ge_None in Hit. apply lookup_lt_Some in Hit'.
      rewrite (sh_len _ _ Hsh) in Hit'. lia. }
    destruct (st_heap _ _ Hst _ _ Hit) as (it'' & ? & _ & Hsub).
    assert (it'' = it') as -> by congruence.
    eapply sublist_NoDup; [by apply (so_nodup _ Hs a)|exact Hsub].
  - rewrite (st_count _ _ Hst), (sh_len _ _ Hsh). apply (so_count _ Hs).
Qed.

Lemma sound_same_tree m m' :
  sound m → tree_ok m' → root m' = root m → item_count m' = item_count m →
  all_items m' = all_items m → length (heap m') = length (heap m) →
  (∀ a it', heap m' !! a = Some it' →
     ∃ it, heap m !! a = Some it ∧ children it' = children it) →
  sound m'.
Proof.
  intros Hs Hok Hr Hc Hi Hl Hh. split; [done|rewrite ?Hi, ?Hr, ?Hc, ?Hl..].
  - apply (so_keys _ Hs).
  - apply (so_root _ Hs).
  - intros a it' Hit'. destruct (Hh a it' Hit') as (it & Hit & ->).
    by apply (so_nodup _ Hs a).
  - apply (so_count _ Hs).
Qed.

Lemma sound_perform fuel op m m' :
  sound m → perform clock fuel op m = Done tt m' → sound m'.
Proof.
  intros Hs H. pose proof (so_tree _ Hs) as Hok.
  destruct (perform_sound _ _ _ _ _ Hok H) as [Hok' _].
  destruct op as [pp t|path t|path|since|]; simpl in H.
  - apply bind_Done in H as (v & m1 & H & Hr). unfold ret in Hr. simplify_eq.
    destruct (all_items m !! pp) as [pa|] eqn:Hpa.
    + destruct (ok_mapped _ Hok _ _ Hpa) as (p & Hp & _).
      rewrite (create_item_spec _ _ _ _ _ _ Hpa Hp) in H. simplify_eq.
      by apply sound_created.
    + rewrite create_item_missing in H by done. by simplify_eq.
  - apply bind_Done in H as (v & m1 & H & Hr). unfold ret in Hr. simplify_eq.
    destruct (all_items m !! path) as [a|] eqn:Ha.
    + destruct (ok_mapped _ Hok _ _ Ha) as (it & Hit & _).
      rewrite (update_item_spec _ _ _ _ _ _ Ha Hit) in H. simplify_eq.
      eapply sound_same_tree; [done..|by simpl; rewrite length_insert|].
      intros b itb Hb. simpl in Hb. destruct (decide (a = b)) as [->|Hne].
      * rewrite list_lookup_insert_eq in Hb by (by eapply lookup_lt_Some).
        simplify_eq. by exists it.
      * rewrite list_lookup_insert_ne in Hb by done. by exists itb.
    + rewrite update_item_missing in H by done. by simplify_eq.
  - apply bind_Done in H as (v & m1 & H & Hr). unfold ret in Hr. simplify_eq.
    eapply sound_shrinks; [done|by eapply delete_item_shrinks|by eapply delete_item_steady].
  - apply bind_Done in H as (v & m1 & H & Hr). unfold ret in Hr. simplify_eq.
    rewrite get_updated_items_spec in H by done. simplify_eq.
    eapply sound_same_tree; [done..|]. intros b itb Hb. by exists itb.
  - unfold clear_updated_items in H. simplify_eq.
    eapply sound_same_tree; [done..|]. intros b itb Hb. by exists itb.
Qed.

Lemma reachable_sound m : reachable clock m → sound m.
Proof.
  induction 1 as [|m op fuel m' _ IH _ Hstep]; [apply sound_init|].
  by eapply sound_perform.
Qed.

End Soundness.

(** ** The routes

    The handlers of the Flask application, as functions from the parsed
    request to a response and a new state.  A response is a body and a
    status code.  [request.json] is the parsed body as the handler sees
    it: [None], or a dictionary, whose values are taken to be strings. *)

Inductive Body : Type :=
| ItemJson (u t : string) (cs : list string)
| ErrorJson (msg : string)
| EmptyBody.

Definition Response : Type := Body * nat.

Inductive Method : Type := GET | POST.

(** [jsonify(item.to_dict())] *)
Definition jsonify_item (d : string * string * list string) : Body :=
  ItemJson d.1.1 d.1.2 d.2.

(** [data = request.json if request.json else {}] followed by
    [data.get('text', '')] *)
Definition request_text (json : option (gmap string string)) : string :=
  let data := match json with
              | Some d => if decide (d = ∅) then ∅ else d
              | None => ∅
              end in
  default "" (data !! "text").

Module Routes.
Section Routes.

Variable clock : nat → Z.

(** [handle_root], for [/outline/] *)
Definition handle_root (method : Method) (json : option (gmap string string))
  : M Response :=
  match method with
  | GET => fun m => (do d <- to_dict (root m) ; ret (jsonify_item d, 200)) m
  | POST =>
      let t := request_text json in
      do new_item <- create_item clock "/outline/" t ;
      match new_item with
      | None => ret (ErrorJson "Parent not found", 404)
      | Some a => do d <- to_dict a ; ret (jsonify_item d, 201)
      end
  end.

(** [get_item], for GET on [/outline/<path:item_path>/] *)
Definition get_item (item_path : string) : M Response :=
  let u := "/outline/" +:+ item_path +:+ "/" in
  do item <- get_item u ;
  match item with
  | None => ret (ErrorJson "Item not found", 404)
  | Some a => do d <- to_dict a ; ret (jsonify_item d, 200)
  end.

(** [create_item], for POST on [/outline/<path:item_path>/] *)
Definition create_item (item_path : string) (json : option (gmap string string))
  : M Response :=
  let u := "/outline/" +:+ item_path +:+ "/" in
  let t := request_text json in
  do new_item <- create_item clock u t ;
  match new_item with
  | None => ret (ErrorJson "Parent not found", 404)
  | Some a => do d <- to_dict a ; ret (jsonify_item d, 201)
  end.

(** [update_item], for PUT on [/outline/<path:item_path>/] *)
Definition update_item (item_path : string) (json : option (gmap string string))
  : M Response :=
  let u := "/outline/" +:+ item_path +:+ "/" in
  let t := request_text json in
  do updated_item <- update_item clock u t ;
  match updated_item with
  | None => ret (ErrorJson "Item not found", 404)
  | Some a => do d <- to_dict a ; ret (jsonify_item d, 200)
  end.

(** [delete_item], for DELETE on [/outline/<path:item_path>/] *)
Definition delete_item (fuel : nat) (item_path : string) : M Response :=
  let u := "/outline/" +:+ item_path +:+ "/" in
  do ok <- delete_item clock fuel u ;
  if ok : bool then ret (EmptyBody, 204)
  else ret (ErrorJson "Item not found", 404).

End Routes.
End Routes.

(** ** Further properties of the model *)

(** A model with one child under the root, used to instantiate the
    theorems below. *)
Definition one_child : OutlineModel :=
  created second_clock "/outline/" "A" 0
    (mkItem "/outline/" "My Outline" [] 0%Z) (init second_clock).

Lemma create_first_child :
  create_item second_clock "/outline/" "A" (init second_clock)
  = Done (Some 1) one_child.
Proof. by apply create_item_spec. Qed.

Lemma one_child_reachable : reachable second_clock one_child.
Proof.
  apply (reachable_step _ _ _ (CreateItem "/outline/" "A") 0 _ (reachable_init _ _) I).
  simpl. by rewrite (bind_eq _ _ _ _ _ create_first_child).
Qed.

Lemma delete_first_child :
  ∃ m2, delete_item second_clock 1 "/outline/0/" one_child = Done true m2.
Proof. eexists. vm_compute. reflexivity. Qed.

(** The object [create_item] returns has the derived URL, under which
    [get_item] finds it, and [to_dict] serialises it without children. *)
Lemma create_item_then_get_item_aux (clock : nat → Z) (m : OutlineModel)
    (u t : string) (a : addr) (m' : OutlineModel) :
  create_item clock u t m = Done (Some a) m' →
  ∃ n, get_item (u +:+ dec n +:+ "/") m' = Done (Some a) m' ∧
       to_dict a m' = Done (u +:+ dec n +:+ "/", t, []) m'.
Proof.
  intros H. destruct (all_items m !! u) as [pa|] eqn:Hpa; last first.
  { rewrite create_item_missing in H by done. by simplify_eq. }
  destruct (heap m !! pa) as [p|] eqn:Hp; last first.
  { unfold create_item, bind, get_item, deref in H. by rewrite Hpa, Hp in H. }
  rewrite (create_item_spec _ _ _ _ _ _ Hpa Hp) in H. simplify_eq.
  pose proof (created_heap_new clock u t pa p m Hp) as Hnew.
  exists (length (children p)). split.
  - unfold get_item. simpl. by rewrite lookup_insert_eq.
  - unfold to_dict, bind, deref. by rewrite Hnew.
Qed.

(** X1.  What [create_item] returns can be fetched: [get_item] on the URL
    of the new object returns that object, and [to_dict] serialises it as
    its URL, the given text and no children. *)
Theorem create_item_then_get_item (clock : nat → Z) (m : OutlineModel)
    (parent_path t : string) (a : addr) (m' : OutlineModel) :
  create_item clock parent_path t m = Done (Some a) m' →
  ∃ it, heap m' !! a = Some it ∧ text it = t ∧ children it = [] ∧
        get_item (url it) m' = Done (Some a) m' ∧
        to_dict a m' = Done (url it, t, []) m'.
Proof.
  intros H. destruct (all_items m !! parent_path) as [pa|] eqn:Hpa; last first.
  { rewrite create_item_missing in H by done. by simplify_eq. }
  destruct (heap m !! pa) as [p|] eqn:Hp; last first.
  { unfold create_item, bind, get_item, deref in H. by rewrite Hpa, Hp in H. }
  rewrite (create_item_spec _ _ _ _ _ _ Hpa Hp) in H. simplify_eq.
  pose proof (created_heap_new clock parent_path t pa p m Hp) as Hnew.
  eexists. split; [exact Hnew|]. split; [done|]. split; [done|]. split.
  - unfold get_item. simpl. by rewrite lookup_insert_eq.
  - unfold to_dict, bind, deref. by rewrite Hnew.
Qed.

Lemma create_item_then_get_item_witness :
  ∃ it, text it = "A" ∧ get_item (url it) one_child = Done (Some 1) one_child.
Proof.
  destruct (create_item_then_get_item second_clock (init second_clock)
              "/outline/" "A" 1 one_child create_first_child)
    as (it & _ & Ht & _ & Hget & _).
  exists it. split; [exact Ht|exact Hget].
Defined.

(** X2.  The root is permanent: in every reachable state [get_item] on
    the root URL returns the root object, whose URL is the root URL, and
    a GET on [/outline/] is answered with status 200 and the root, with one
    URL for each of its children. *)
Theorem root_is_permanent (clock : nat → Z) (m : OutlineModel) :
  reachable clock m →
  get_item root_url m = Done (Some (root m)) m ∧
  ∃ it us, heap m !! root m = Some it ∧ url it = root_url ∧
           length us = length (children it) ∧
           ∀ json, Routes.handle_root clock GET json m
                   = Done (ItemJson root_url (text it) us, 200) m.
Proof.
  intros Hr. pose proof (reachable_sound clock _ Hr) as Hs.
  pose proof (so_root _ Hs) as Hroot.
  split; [unfold get_item; by rewrite Hroot|].
  destruct (ok_mapped _ (so_tree _ Hs) _ _ Hroot) as (it & Hit & Hu).
  destruct (to_dict_spec _ _ _ (so_tree _ Hs) Hit) as (us & Hd & Hall).
  exists it, us. rewrite Hu in Hd. split; [done|]. split; [done|].
  split; [symmetry; by eapply Forall2_length|].
  intros json. unfold Routes.handle_root, bind. by rewrite Hd.
Qed.

Lemma root_is_permanent_witness :
  get_item root_url one_child = Done (Some 0) one_child ∧
  ∃ us, length us = 1 ∧
        Routes.handle_root second_clock GET None one_child
        = Done (ItemJson root_url "My Outline" us, 200) one_child.
Proof.
  destruct (root_is_permanent second_clock one_child one_child_reachable)
    as (Hget & it & us & Hit & _ & Hlen & Hroute).
  split; [exact Hget|]. exists us.
  vm_compute in Hit. injection Hit as <-.
  split; [exact Hlen|exact (Hroute None)].
Defined.

(** X3.  [item_count] counts the creations that succeeded: an operation
    from a reachable state adds one to it if it is a [create_item] whose
    parent URL is in the dictionary, and leaves it as it is otherwise; in
    particular [delete_item] never decrements it. *)
Theorem item_count_counts_creations (clock : nat → Z) (m : OutlineModel)
    (fuel : nat) (op : Op) (m' : OutlineModel) :
  reachable clock m → perform clock fuel op m = Done tt m' →
  item_count m' =
    match op with
    | CreateItem parent_path _ =>
        if all_items m !! parent_path is Some _
        then S (item_count m) else item_count m
    | _ => item_count m
    end.
Proof.
  intros Hr H. pose proof (reachable_tree_ok clock _ Hr) as Hok.
  destruct op as [pp t|path t|path|since|]; simpl in H.
  - apply bind_Done in H as (v & m1 & H & Hret). unfold ret in Hret. simplify_eq.
    destruct (all_items m !! pp) as [pa|] eqn:Hpa.
    + destruct (ok_mapped _ Hok _ _ Hpa) as (p & Hp & _).
      rewrite (create_item_spec _ _ _ _ _ _ Hpa Hp) in H. by simplify_eq.
    + rewrite create_item_missing in H by done. by simplify_eq.
  - apply bind_Done in H as (v & m1 & H & Hret). unfold ret in Hret. simplify_eq.
    destruct (all_items m !! path) as [a|] eqn:Ha.
    + destruct (ok_mapped _ Hok _ _ Ha) as (it & Hit & _).
      rewrite (update_item_spec _ _ _ _ _ _ Ha Hit) in H. by simplify_eq.
    + rewrite update_item_missing in H by done. by simplify_eq.
  - apply bind_Done in H as (v & m1 & H & Hret). unfold ret in Hret. simplify_eq.
    by apply (st_count _ _ (delete_item_steady clock _ _ _ _ _ H)).
  - apply bind_Done in H as (v & m1 & H & Hret). unfold ret in Hret. simplify_eq.
    rewrite get_updated_items_spec in H by done. by simplify_eq.
  - unfold clear_updated_items in H. by simplify_eq.
Qed.

Lemma item_count_counts_creations_witness :
  ∃ m', perform second_clock 0 (CreateItem "/outline/" "A") (init second_clock)
        = Done tt m' ∧ item_count m' = 1.
Proof.
  assert (perform second_clock 0 (CreateItem "/outline/" "A") (init second_clock)
          = Done tt one_child) as Hrun.
  { simpl. by rewrite (bind_eq _ _ _ _ _ create_first_child). }
  exists one_child. split; [exact Hrun|].
  exact (item_count_counts_creations second_clock (init second_clock) 0
           (CreateItem "/outline/" "A") one_child (reachable_init _ _) Hrun).
Defined.

(** X4.  [delete_item] only removes.  Whatever the state, after a call
    that returns the dictionary is a part of what it was, the object store
    has the same objects with the same URL and text and a sublist of their
    children, the counter and the root are the same, the root URL leads
    where it led, and the dirty set has lost nothing. *)
Theorem delete_item_only_removes (clock : nat → Z) (fuel : nat) (path : string)
    (m : OutlineModel) (b : bool) (m' : OutlineModel) :
  delete_item clock fuel path m = Done b m' →
  all_items m' ⊆ all_items m ∧
  all_items m' !! root_url = all_items m !! root_url ∧
  length (heap m') = length (heap m) ∧
  (∀ a it, heap m !! a = Some it →
     ∃ it', heap m' !! a = Some it' ∧ url it' = url it ∧ text it' = text it ∧
            children it' `sublist_of` children it) ∧
  item_count m' = item_count m ∧ root m' = root m ∧
  updated_items m ⊆ updated_items m'.
Proof.
  intros H.
  pose proof (delete_item_shrinks clock _ _ _ _ _ H) as [Hlen Hheap Hitems].
  pose proof (delete_item_steady clock _ _ _ _ _ H) as [Hroot Hcount Hentry Hdirty Hst].
  repeat split; try done.
  intros a it Hit.
  destruct (Hheap a it Hit) as (it1 & Hit1 & Hu & _).
  destruct (Hst a it Hit) as (it2 & Hit2 & Ht & Hsub).
  assert (it2 = it1) as -> by congruence. by exists it1.
Qed.

Lemma delete_item_only_removes_witness :
  ∃ m2, delete_item second_clock 1 "/outline/0/" one_child = Done true m2 ∧
        item_count m2 = 1 ∧ length (heap m2) = 2.
Proof.
  destruct delete_first_child as (m2 & Hrun). exists m2. split; [exact Hrun|].
  destruct (delete_item_only_removes _ _ _ _ _ _ Hrun)
    as (_ & _ & Hlen & _ & Hcount & _).
  split; [exact Hcount|exact Hlen].
Defined.

(** X5.  [delete_item] at a URL never removes the dictionary entry of a
    shorter URL, hence of no ancestor: in a reachable state every URL that
    is shorter than the one deleted leads after the call where it led
    before. *)
Theorem delete_item_spares_shorter_urls (clock : nat → Z) (fuel : nat)
    (path : string) (m : OutlineModel) (b : bool) (m' : OutlineModel) :
  reachable clock m → delete_item clock fuel path m = Done b m' →
  ∀ k, String.length k < String.length path →
       all_items m' !! k = all_items m !! k.
Proof.
  intros Hr H k Hk. pose proof (reachable_tree_ok clock _ Hr) as Hok.
  pose proof (delete_item_removed clock _ _ _ _ _ Hok H) as Hrem.
  pose proof (sh_items _ _ (delete_item_shrinks clock _ _ _ _ _ H)) as Hsub.
  destruct (all_items m' !! k) as [a'|] eqn:Ha'.
  - symmetry. by eapply lookup_weaken.
  - destruct (all_items m !! k) as [a|] eqn:Ha; [|done].
    specialize (Hrem k). rewrite Ha in Hrem. specialize (Hrem ltac:(eauto) Ha'). lia.
Qed.

Lemma delete_item_spares_shorter_urls_witness :
  ∃ m2, delete_item second_clock 1 "/outline/0/" one_child = Done true m2 ∧
        all_items m2 !! "/outline/" = all_items one_child !! "/outline/".
Proof.
  destruct delete_first_child as (m2 & Hrun). exists m2. split; [exact Hrun|].
  apply (delete_item_spares_shorter_urls second_clock 1 "/outline/0/" _ _ _
           one_child_reachable Hrun).
  simpl. lia.
Defined.

Lemma remove_first_filter (x : addr) (l : list addr) :
  NoDup l → remove_first x l = filter (λ c, c ≠ x) l.
Proof.
  induction 1 as [|y l Hy Hnd IH]; simpl; [done|].
  destruct (decide (x = y)) as [->|Hne].
  - rewrite filter_cons_False by (intros Hc; by apply Hc).
    symmetry. clear IH Hnd. induction l as [|z l IH]; [done|].
    rewrite filter_cons_True by (intros ->; apply Hy; left).
    f_equal. apply IH. intros Hin. apply Hy. by right.
  - rewrite filter_cons_True by congruence. by rewrite IH.
Qed.

(** X6.  In a reachable state no object occurs twice among the children
    of an object.  So [remove_child] on a child that is present returns
    [True] and leaves the other children, in their order, and nothing of
    the child; on a child that is absent it returns [False] and changes
    nothing. *)
Theorem remove_child_removes (clock : nat → Z) (m : OutlineModel)
    (self child : addr) (it : OutlineItem) :
  reachable clock m → heap m !! self = Some it →
  NoDup (children it) ∧
  (child ∈ children it →
     ∃ m' it', remove_child clock self child m = Done true m' ∧
               heap m' !! self = Some it' ∧
               children it' = filter (λ c, c ≠ child) (children it) ∧
               (child ∉ children it') ∧
               (∀ b, b ≠ self → heap m' !! b = heap m !! b) ∧
               all_items m' = all_items m) ∧
  (child ∉ children it → remove_child clock self child m = Done false m).
Proof.
  intros Hr Hit.
  pose proof (so_nodup _ (reachable_sound clock _ Hr) _ _ Hit) as Hnd.
  split; [done|]. rewrite (remove_child_spec clock _ _ _ _ Hit). split.
  - intros Hin. rewrite decide_True by done. eexists _, _. split; [done|]. simpl.
    split; [apply list_lookup_insert_eq; by eapply lookup_lt_Some|]. simpl.
    split; [by apply remove_first_filter|].
    split; [rewrite remove_first_filter by done;
            intros [Hne _]%list_elem_of_filter; by apply Hne|].
    split; [intros b ?; by apply list_lookup_insert_ne|done].
  - intros Hnin. by rewrite decide_False.
Qed.

Lemma remove_child_removes_witness :
  ∃ m' it', remove_child second_clock 0 1 one_child = Done true m' ∧
            heap m' !! 0 = Some it' ∧ 1 ∉ children it'.
Proof.
  destruct (remove_child_removes second_clock one_child 0 1
              (mkItem "/outline/" "My Outline" [1] 2%Z) one_child_reachable eq_refl)
    as (_ & H & _).
  destruct H as (m' & it' & Hrun & Hit' & _ & Hnin & _);
    [apply list_elem_of_singleton; reflexivity|].
  exists m', it'. split; [exact Hrun|]. split; [exact Hit'|exact Hnin].
Defined.

(** X7.  The parent URL that [delete_item] computes from the URL of an
    object is the URL under which [create_item] made the object: for the
    object a successful [create_item parent_path] returns in a reachable
    state, stripping the last segment of its URL gives [parent_path]. *)
Theorem created_url_parent (clock : nat → Z) (m : OutlineModel)
    (parent_path t : string) (a : addr) (m' : OutlineModel) (it : OutlineItem) :
  reachable clock m →
  create_item clock parent_path t m = Done (Some a) m' →
  heap m' !! a = Some it →
  parent_path_of (url it) = parent_path.
Proof.
  intros Hr H Hit. pose proof (reachable_sound clock _ Hr) as Hs.
  destruct (all_items m !! parent_path) as [pa|] eqn:Hpa; last first.
  { rewrite create_item_missing in H by done. by simplify_eq. }
  destruct (ok_mapped _ (so_tree _ Hs) _ _ Hpa) as (p & Hp & _).
  rewrite (create_item_spec _ _ _ _ _ _ Hpa Hp) in H. simplify_eq.
  rewrite created_heap_new in Hit by done. simplify_eq. simpl.
  destruct (so_keys _ Hs parent_path ltac:(eauto)) as [_ [q ->]].
  rewrite str_app_assoc. apply parent_path_of_child, dec_slash_free.
Qed.

Lemma created_url_parent_witness :
  parent_path_of "/outline/0/" = "/outline/".
Proof.
  exact (created_url_parent second_clock (init second_clock) "/outline/" "A" 1
           one_child (mkItem "/outline/0/" "A" [] 1%Z)
           (reachable_init _ _) create_first_child eq_refl).
Defined.

(** X8.  [get_updated_items] reads the tree and does not change it: after
    a call in a reachable state the objects, the dictionary, the root and
    the counter are as they were, the dirty set has gained nothing, and
    every URL returned was in the dirty set. *)
Theorem polling_is_read_only (clock : nat → Z) (m : OutlineModel) (since : Z)
    (r : list string) (m' : OutlineModel) :
  reachable clock m → get_updated_items clock since m = Done r m' →
  heap m' = heap m ∧ all_items m' = all_items m ∧
  root m' = root m ∧ item_count m' = item_count m ∧
  updated_items m' ⊆ updated_items m ∧
  (∀ u, u ∈ r → u ∈ updated_items m).
Proof.
  intros Hr H. rewrite get_updated_items_spec in H by (by apply (reachable_tree_ok clock)).
  simplify_eq. simpl. repeat split; try done.
  - intros u [Hu _]%elem_of_swept. done.
  - intros u [_ Hu]%list_elem_of_filter. by apply elem_of_elements.
Qed.

Lemma polling_is_read_only_witness :
  ∃ r m', get_updated_items second_clock 0 one_child = Done r m' ∧
          heap m' = heap one_child ∧ all_items m' = all_items one_child.
Proof.
  assert (∃ r m', get_updated_items second_clock 0 one_child = Done r m')
    as (r & m' & Hrun).
  { eexists _, _. apply get_updated_items_spec.
    apply (reachable_tree_ok second_clock), one_child_reachable. }
  exists r, m'. split; [exact Hrun|].
  destruct (polling_is_read_only second_clock one_child 0 r m' one_child_reachable Hrun)
    as (Hh & Hi & _).
  split; [exact Hh|exact Hi].
Defined.

(** X9.  After [clear_updated_items] nothing is reported: in a reachable
    state the call empties the dirty set and touches nothing else, and a
    following [get_updated_items] returns the empty list, whatever its
    argument. *)
Theorem clear_then_poll (clock : nat → Z) (m : OutlineModel) :
  reachable clock m →
  ∃ m1, clear_updated_items m = Done tt m1 ∧
        updated_items m1 = ∅ ∧
        heap m1 = heap m ∧ all_items m1 = all_items m ∧ ticks m1 = ticks m ∧
        root m1 = root m ∧ item_count m1 = item_count m ∧
        ∀ since, ∃ m2, get_updated_items clock since m1 = Done [] m2 ∧
                       updated_items m2 = ∅.
Proof.
  intros Hr. pose proof (reachable_tree_ok clock _ Hr) as Hok.
  eexists. split; [done|]. simpl. do 6 (split; [done|]).
  intros since. eexists.
  rewrite get_updated_items_spec by (by destruct Hok).
  simpl. rewrite elements_empty. split; [done|]. simpl.
  unfold swept. simpl. rewrite elements_empty. apply difference_diag_L.
Qed.

Lemma clear_then_poll_witness :
  ∃ m1, clear_updated_items one_child = Done tt m1 ∧ updated_items m1 = ∅.
Proof.
  destruct (clear_then_poll second_clock one_child one_child_reachable)
    as (m1 & Hrun & He & _).
  exists m1. split; [exact Hrun|exact He].
Defined.

(** X10.  A change is reported to a client that polls afterwards.  After
    a successful [create_item] in a reachable state, [get_updated_items
    since] contains the URL of the new object and the parent URL, and
    after a successful [update_item] it contains the updated URL, provided
    [since] is below the clock readings taken by the call. *)
Theorem changes_are_reported (clock : nat → Z) (m : OutlineModel) (since : Z) :
  reachable clock m →
  (∀ parent_path t a m1,
     create_item clock parent_path t m = Done (Some a) m1 →
     (since < clock (ticks m))%Z → (since < clock (S (ticks m)))%Z →
     ∃ r m2 it, get_updated_items clock since m1 = Done r m2 ∧
                heap m1 !! a = Some it ∧ url it ∈ r ∧ parent_path ∈ r) ∧
  (∀ path t a m1,
     update_item clock path t m = Done (Some a) m1 →
     (since < clock (ticks m))%Z →
     ∃ r m2, get_updated_items clock since m1 = Done r m2 ∧ path ∈ r).
Proof.
  intros Hr. pose proof (reachable_tree_ok clock _ Hr) as Hok. split.
  - intros pp t a m1 H Hs1 Hs2.
    destruct (all_items m !! pp) as [pa|] eqn:Hpa; last first.
    { rewrite create_item_missing in H by done. by simplify_eq. }
    destruct (ok_mapped _ Hok _ _ Hpa) as (p & Hp & _).
    rewrite (create_item_spec _ _ _ _ _ _ Hpa Hp) in H. simplify_eq.
    pose proof (tree_ok_created clock pp t pa p m Hok Hpa Hp) as Hok1.
    pose proof (created_heap_new clock pp t pa p m Hp) as Hnew.
    pose proof (created_heap_parent clock pp t pa p m Hp) as Hpar.
    pose proof (child_key_longer pp (length (children p))) as Hlong.
    eexists _, _, _. split; [by apply get_updated_items_spec|].
    split; [exact Hnew|]. simpl. split.
    + apply list_elem_of_filter. split.
      * apply changed_since_iff. eexists _, _. split; [|split; [exact Hnew|done]].
        simpl. apply lookup_insert_eq.
      * apply elem_of_elements. simpl.
        apply elem_of_union_r, elem_of_union_l, elem_of_singleton. done.
    + apply list_elem_of_filter. split.
      * apply changed_since_iff. eexists _, _. split; [|split; [exact Hpar|done]].
        simpl. rewrite lookup_insert_ne; [done|].
        intros Heq. rewrite Heq in Hlong. lia.
      * apply elem_of_elements. simpl.
        apply elem_of_union_l, elem_of_singleton. done.
  - intros path t a m1 H Hs1.
    destruct (all_items m !! path) as [a'|] eqn:Ha; last first.
    { rewrite update_item_missing in H by done. by simplify_eq. }
    destruct (ok_mapped _ Hok _ _ Ha) as (it & Hit & _).
    rewrite (update_item_spec _ _ _ _ _ _ Ha Hit) in H. simplify_eq.
    assert (tree_ok (updated clock path t a it m)) as Hok1.
    { eapply tree_ok_shrinks; [done|by apply updated_shrinks]. }
    eexists _, _. split; [by apply get_updated_items_spec|].
    apply list_elem_of_filter. split.
    + apply changed_since_iff. eexists a, _. split; [done|]. simpl.
      split; [apply list_lookup_insert_eq; by eapply lookup_lt_Some|done].
    + apply elem_of_elements. simpl.
      apply elem_of_union_l, elem_of_singleton. done.
Qed.

Lemma changes_are_reported_witness :
  ∃ r m2, get_updated_items second_clock 0 one_child = Done r m2 ∧
          "/outline/0/" ∈ r ∧ "/outline/" ∈ r.
Proof.
  destruct (changes_are_reported second_clock (init second_clock) 0 (reachable_init _ _))
    as [H _].
  destruct (H "/outline/" "A" 1 one_child create_first_child) as (r & m2 & it & Hrun & Hit & H1 & H2);
    [unfold second_clock; simpl; lia..|].
  exists r, m2. split; [exact Hrun|].
  injection Hit as <-. split; [exact H1|exact H2].
Defined.

(** ** The tree when nothing is ever deleted *)

(** The dictionary and the tree agree: every child is in the dictionary
    under its own URL, every object of the dictionary can be reached from
    the root, and the [i]-th child of an object has the URL of the object
    followed by [i] and a slash. *)
Record faithful (m : OutlineModel) : Prop := mkFaithful {
  fa_index : index_ok m;
  fa_root : all_items m !! root_url = Some (root m);
  fa_child : ∀ a it c, heap m !! a = Some it → c ∈ children it →
    ∃ cit, heap m !! c = Some cit ∧ all_items m !! url cit = Some c;
  fa_in_tree : ∀ k a, all_items m !! k = Some a → in_tree m a;
  fa_ordered : ∀ a it i c, heap m !! a = Some it → children it !! i = Some c →
    ∃ cit, heap m !! c = Some cit ∧ url cit = url it +:+ dec i +:+ "/"
}.

Lemma in_tree_mono m m' a :
  root m' = root m →
  (∀ b it c, heap m !! b = Some it → c ∈ children it →
     ∃ it', heap m' !! b = Some it' ∧ c ∈ children it') →
  in_tree m a → in_tree m' a.
Proof.
  intros Hroot Hch. induction 1 as [|b it c _ IH Hit Hc].
  - rewrite <- Hroot. constructor.
  - destruct (Hch b it c Hit Hc) as (it' & Hit' & Hc'). by econstructor.
Qed.

Section Faithful.

Variable clock : nat → Z.

Lemma faithful_init : faithful (init clock).
Proof.
  split.
  - apply index_ok_init.
  - done.
  - intros a it c Hit Hc. simpl in Hit.
    apply list_lookup_singleton_Some in Hit as [_ <-]. by apply elem_of_nil in Hc.
  - intros k a Ha. simpl in Ha. apply lookup_singleton_Some in Ha as [_ <-].
    apply (in_tree_root (init clock)).
  - intros a it i c Hit Hc. simpl in Hit.
    apply list_lookup_singleton_Some in Hit as [_ <-]. done.
Qed.

Lemma faithful_created parent_path t pa p m :
  faithful m → all_items m !! parent_path = Some pa → heap m !! pa = Some p →
  faithful (created clock parent_path t pa p m).
Proof.
  intros Hf Hpa Hp. pose proof (fa_index _ Hf) as Hix.
  pose proof (ix_tree _ Hix) as Hok.
  pose proof (index_ok_fresh _ _ _ _ Hix Hpa Hp) as Hfresh.
  pose proof (created_evolves clock parent_path t pa p m Hp) as Hev.
  pose proof (created_heap_new clock parent_path t pa p m Hp) as Hnew.
  pose proof (created_heap_parent clock parent_path t pa p m Hp) as Hpar.
  pose proof (child_key_longer parent_path (length (children p))) as Hlong.
  destruct (ok_mapped _ Hok _ _ Hpa) as (p0 & Hp0 & Hurl).
  assert (p0 = p) as -> by congruence.
  destruct (ix_shape _ Hix parent_path ltac:(eauto)) as [Hlen _].
  (* an object of the old store is still there, with its URL *)
  assert (∀ c cit, heap m !! c = Some cit →
            ∃ cit', heap (created clock parent_path t pa p m) !! c = Some cit' ∧
                    url cit' = url cit) as Hkeep.
  { intros c cit Hcit. destruct (ev_old _ _ _ Hev _ _ Hcit) as (cit' & ? & ? & _).
    by exists cit'. }
  (* an entry of the old dictionary is still there *)
  assert (∀ k c, all_items m !! k = Some c →
            all_items (created clock parent_path t pa p m) !! k = Some c) as Hentry.
  { intros k c Hk. simpl. rewrite lookup_insert_ne; [done|]. congruence. }
  split.
  - by apply index_ok_created.
  - apply Hentry, (fa_root _ Hf).
  - assert (∀ a0 it0 c, heap m !! a0 = Some it0 → c ∈ children it0 →
              ∃ cit, heap (created clock parent_path t pa p m) !! c = Some cit ∧
                     all_items (created clock parent_path t pa p m) !! url cit = Some c)
      as Hold.
    { intros a0 it0 c Hit0 Hc.
      destruct (fa_child _ Hf _ _ _ Hit0 Hc) as (cit & Hcit & Hk).
      destruct (Hkeep c cit Hcit) as (cit' & Hcit' & Hu).
      exists cit'. split; [done|]. rewrite Hu. by apply Hentry. }
    intros a it c Hit Hc.
    destruct (created_heap_cases _ _ _ _ _ _ _ _ Hp Hit)
      as [[-> ->]|[[-> ->]|(_ & _ & Hit0)]]; simpl in Hc.
    + apply elem_of_app in Hc as [Hc|Hc]; [by eapply Hold|].
      apply list_elem_of_singleton in Hc as ->.
      eexists. split; [exact Hnew|]. simpl. apply lookup_insert_eq.
    + by apply elem_of_nil in Hc.
    + by eapply Hold.
  - assert (∀ b, in_tree m b → in_tree (created clock parent_path t pa p m) b) as Hmono.
    { intros b. apply in_tree_mono; [done|].
      intros b0 it0 c Hit0 Hc. destruct (decide (b0 = pa)) as [->|Hne].
      - eexists. split; [exact Hpar|]. simpl. simplify_eq.
        apply elem_of_app. by left.
      - exists it0. split; [|done]. rewrite created_heap_other; [done..|].
        apply lookup_lt_Some in Hit0. lia. }
    intros k a Ha. simpl in Ha.
    apply lookup_insert_Some in Ha as [[_ <-]|[_ Ha]].
    + eapply in_tree_child; [apply Hmono, (fa_in_tree _ Hf _ _ Hpa)|exact Hpar|].
      simpl. apply elem_of_app. right. by apply list_elem_of_singleton.
    + apply Hmono. by eapply fa_in_tree.
  - assert (∀ a0 it0 i c, heap m !! a0 = Some it0 → children it0 !! i = Some c →
              ∃ cit, heap (created clock parent_path t pa p m) !! c = Some cit ∧
                     url cit = url it0 +:+ dec i +:+ "/") as Hold.
    { intros a0 it0 i c Hit0 Hc.
      destruct (fa_ordered _ Hf _ _ _ _ Hit0 Hc) as (cit & Hcit & Hu).
      destruct (Hkeep c cit Hcit) as (cit' & Hcit' & Hu').
      exists cit'. split; [done|congruence]. }
    intros a it i c Hit Hc.
    destruct (created_heap_cases _ _ _ _ _ _ _ _ Hp Hit)
      as [[-> ->]|[[-> ->]|(_ & _ & Hit0)]]; simpl in *.
    + apply lookup_app_Some in Hc as [Hc|[Hge Hc]]; [by eapply (Hold pa p)|].
      apply list_lookup_singleton_Some in Hc as [Hi <-].
      assert (i = length (children p)) as -> by lia.
      eexists. split; [exact Hnew|]. simpl. by rewrite Hurl.
    + done.
    + by eapply Hold.
Qed.

(** A step that keeps the root, the dictionary and, for every object, the
    URL and the children, keeps the agreement. *)
Lemma faithful_same_tree m m' :
  faithful m → index_ok m' → root m' = root m → all_items m' = all_items m →
  (∀ a it, heap m !! a = Some it →
     ∃ it', heap m' !! a = Some it' ∧ url it' = url it ∧ children it' = children it) →
  (∀ a it', heap m' !! a = Some it' → is_Some (heap m !! a)) →
  faithful m'.
Proof.
  intros Hf Hix Hroot Hitems Hfw Hbw.
  assert (∀ a it', heap m' !! a = Some it' →
            ∃ it, heap m !! a = Some it ∧ url it' = url it ∧ children it' = children it)
    as Hback.
  { intros a it' Hit'. destruct (Hbw a it' Hit') as [it Hit].
    destruct (Hfw a it Hit) as (it'' & ? & ? & ?).
    assert (it'' = it') as -> by congruence. by exists it. }
  split; [done|rewrite ?Hitems, ?Hroot..].
  - apply (fa_root _ Hf).
  - intros a it' c Hit' Hc. destruct (Hback a it' Hit') as (it & Hit & _ & Hch).
    rewrite Hch in Hc. destruct (fa_child _ Hf _ _ _ Hit Hc) as (cit & Hcit & Hk).
    destruct (Hfw c cit Hcit) as (cit' & ? & Hu & _).
    exists cit'. split; [done|]. by rewrite ?Hitems, Hu.
  - intros k a Ha. eapply in_tree_mono; [done| |by eapply (fa_in_tree _ Hf)].
    intros b it c Hit Hc. destruct (Hfw b it Hit) as (it' & ? & _ & Hch).
    exists it'. split; [done|]. by rewrite Hch.
  - intros a it' i c Hit' Hc. destruct (Hback a it' Hit') as (it & Hit & Hu & Hch).
    rewrite Hch in Hc. destruct (fa_ordered _ Hf _ _ _ _ Hit Hc) as (cit & Hcit & Hcu).
    destruct (Hfw c cit Hcit) as (cit' & ? & Hu' & _).
    exists cit'. split; [done|]. congruence.
Qed.

Lemma faithful_perform fuel op m m' :
  ¬ is_delete op → faithful m → perform clock fuel op m = Done tt m' → faithful m'.
Proof.
  intros Hnd Hf H. pose proof (fa_index _ Hf) as Hix.
  pose proof (ix_tree _ Hix) as Hok.
  pose proof (index_ok_perform clock _ _ _ _ Hnd Hix H) as Hix'.
  destruct op as [pp t|path t|path|since|]; simpl in H; [| | by destruct Hnd | |].
  - apply bind_Done in H as (v & m1 & H & Hr). unfold ret in Hr. simplify_eq.
    destruct (all_items m !! pp) as [pa|] eqn:Hpa.
    + destruct (ok_mapped _ Hok _ _ Hpa) as (p & Hp & _).
      rewrite (create_item_spec _ _ _ _ _ _ Hpa Hp) in H. simplify_eq.
      by apply faithful_created.
    + rewrite create_item_missing in H by done. by simplify_eq.
  - apply bind_Done in H as (v & m1 & H & Hr). unfold ret in Hr. simplify_eq.
    destruct (all_items m !! path) as [a|] eqn:Ha.
    + destruct (ok_mapped _ Hok _ _ Ha) as (it & Hit & _).
      rewrite (update_item_spec _ _ _ _ _ _ Ha Hit) in H. simplify_eq.
      eapply faithful_same_tree; [done..| |].
      * intros b itb Hb. simpl. destruct (decide (a = b)) as [->|Hne].
        -- rewrite list_lookup_insert_eq by (by eapply lookup_lt_Some).
           eexists. split; [done|]. by simplify_eq.
        -- rewrite list_lookup_insert_ne by done. by exists itb.
      * intros b itb Hb. simpl in Hb. apply lookup_lt_is_Some.
        apply lookup_lt_Some in Hb. by rewrite length_insert in Hb.
    + rewrite update_item_missing in H by done. by simplify_eq.
  - apply bind_Done in H as (v & m1 & H & Hr). unfold ret in Hr. simplify_eq.
    rewrite get_updated_items_spec in H by done. simplify_eq.
    eapply faithful_same_tree; [done..| |].
    + intros b itb Hb. by exists itb.
    + intros b itb Hb. by exists itb.
  - unfold clear_updated_items in H. simplify_eq.
    eapply faithful_same_tree; [done..| |].
    + intros b itb Hb. by exists itb.
    + intros b itb Hb. by exists itb.
Qed.

Lemma reachable_faithful m :
  reachable_by clock (λ op, ¬ is_delete op) m → faithful m.
Proof.
  induction 1 as [|m op fuel m' _ IH Hop Hstep]; [apply faithful_init|].
  by eapply faithful_perform.
Qed.

End Faithful.

(** X11.  As long as nothing is deleted the dictionary and the tree
    agree: in a state reached without [delete_item] an object can be
    reached from the root through [children] exactly when some URL of the
    dictionary leads to it. *)
Theorem tree_and_dictionary_agree (clock : nat → Z) (m : OutlineModel) (a : addr) :
  reachable_by clock (λ op, ¬ is_delete op) m →
  in_tree m a ↔ ∃ k, all_items m !! k = Some a.
Proof.
  intros Hr. pose proof (reachable_faithful clock _ Hr) as Hf. split.
  - induction 1 as [|b it c _ _ Hit Hc].
    + exists root_url. apply (fa_root _ Hf).
    + destruct (fa_child _ Hf _ _ _ Hit Hc) as (cit & _ & Hk). eauto.
  - intros [k Hk]. by eapply fa_in_tree.
Qed.

Lemma tree_and_dictionary_agree_witness : in_tree one_child 1.
Proof.
  apply (tree_and_dictionary_agree second_clock one_child 1).
  - apply (reachable_step _ _ _ (CreateItem "/outline/" "A") 0 _ (reachable_init _ _));
      [intros []|].
    simpl. rewrite (bind_eq _ _ _ _ _ create_first_child). reflexivity.
  - exists "/outline/0/". reflexivity.
Defined.

(** X12.  As long as nothing is deleted the children of the object under
    a URL [k] are serialised as [k/0/], [k/1/], ... in this order: in a
    state reached without [delete_item], [to_dict] on that object returns
    [k], its text, and these URLs, one for each child. *)
Theorem children_urls_in_order (clock : nat → Z) (m : OutlineModel)
    (k : string) (a : addr) (it : OutlineItem) :
  reachable_by clock (λ op, ¬ is_delete op) m →
  all_items m !! k = Some a → heap m !! a = Some it →
  to_dict a m
  = Done (k, text it,
          (λ i, k +:+ dec i +:+ "/") <$> seq 0 (length (children it))) m.
Proof.
  intros Hr Ha Hit. pose proof (reachable_faithful clock _ Hr) as Hf.
  pose proof (ix_tree _ (fa_index _ Hf)) as Hok.
  destruct (ok_mapped _ Hok _ _ Ha) as (it0 & Hit0 & Hurl).
  assert (it0 = it) as -> by congruence.
  destruct (to_dict_spec _ _ _ Hok Hit) as (us & Hd & Hall).
  rewrite Hd, Hurl. do 3 f_equal.
  apply list_eq. intros i. rewrite list_lookup_fmap.
  destruct (children it !! i) as [c|] eqn:Hc.
  - destruct (Forall2_lookup_l _ _ _ _ _ Hall Hc) as (u & Hu & Hcu).
    destruct (fa_ordered _ Hf _ _ _ _ Hit Hc) as (cit & Hcit & Hcurl).
    rewrite Hcit in Hcu. simpl in Hcu. injection Hcu as <-.
    rewrite Hu, lookup_seq_lt by (by eapply lookup_lt_Some).
    simpl. by rewrite Hcurl, Hurl.
  - apply lookup_ge_None in Hc.
    rewrite (lookup_ge_None_2 us) by (by rewrite <- (Forall2_length _ _ _ Hall)).
    by rewrite lookup_seq_ge.
Qed.

Lemma children_urls_in_order_witness :
  to_dict 0 one_child = Done ("/outline/", "My Outline", ["/outline/0/"]) one_child.
Proof.
  apply (children_urls_in_order second_clock one_child "/outline/" 0
           (mkItem "/outline/" "My Outline" [1] 2%Z)); [|reflexivity..].
  apply (reachable_step _ _ _ (CreateItem "/outline/" "A") 0 _ (reachable_init _ _)).
  - intros [].
  - simpl. by rewrite (bind_eq _ _ _ _ _ create_first_child).
Defined.

(** ** Properties of the routes *)

Lemma route_url_not_root (item_path : string) :
  "/outline/" +:+ item_path +:+ "/" ≠ root_url.
Proof.
  intros H. apply (f_equal String.length) in H.
  rewrite !str_app_length in H. simpl in H. lia.
Qed.

(** X13.  What a POST creates, a GET returns.  When the POST on
    [/outline/<item_path>/] is answered with status 201, the body is the
    new node: its URL is the URL of the request followed by a number and a
    slash, its text is the text of the request and it has no children; and
    a GET on that URL is then answered with status 200 and the same body.
    The same holds for the POST on [/outline/]. *)
Theorem post_then_get (clock : nat → Z) (m : OutlineModel)
    (json : option (gmap string string)) (body : Body) (m' : OutlineModel) :
  (∀ item_path,
     Routes.create_item clock item_path json m = Done (body, 201) m' →
     ∃ n, body = ItemJson ("/outline/" +:+ item_path +:+ "/" +:+ dec n +:+ "/")
                          (request_text json) [] ∧
          Routes.get_item (item_path +:+ "/" +:+ dec n) m' = Done (body, 200) m') ∧
  (Routes.handle_root clock POST json m = Done (body, 201) m' →
     ∃ n, body = ItemJson ("/outline/" +:+ dec n +:+ "/") (request_text json) [] ∧
          Routes.get_item (dec n) m' = Done (body, 200) m').
Proof.
  assert (∀ u, (do new_item <- create_item clock u (request_text json) ;
                match new_item with
                | None => ret (ErrorJson "Parent not found", 404)
                | Some a => do d <- to_dict a ; ret (jsonify_item d, 201)
                end) m = Done (body, 201) m' →
               ∃ n a, body = ItemJson (u +:+ dec n +:+ "/") (request_text json) [] ∧
                      get_item (u +:+ dec n +:+ "/") m' = Done (Some a) m' ∧
                      to_dict a m' = Done (u +:+ dec n +:+ "/", request_text json, []) m')
    as Hgen.
  { intros u H. apply bind_Done in H as (v & m1 & Hc & H).
    destruct v as [a|]; [|unfold ret in H; by simplify_eq].
    destruct (create_item_then_get_item_aux clock m u (request_text json) a m1 Hc)
      as (n & Hget & Hd).
    rewrite (bind_eq _ _ _ _ _ Hd) in H. unfold ret in H. simplify_eq.
    by exists n, a. }
  split.
  - intros item_path H. destruct (Hgen _ H) as (n & a & -> & Hget & Hd).
    exists n. rewrite !str_app_assoc. split; [done|].
    unfold Routes.get_item. rewrite !str_app_assoc in Hget, Hd.
    rewrite !str_app_assoc.
    rewrite (bind_eq _ _ _ _ _ Hget), (bind_eq _ _ _ _ _ Hd). done.
  - intros H. destruct (Hgen _ H) as (n & a & -> & Hget & Hd).
    exists n. split; [done|]. unfold Routes.get_item.
    rewrite (bind_eq _ _ _ _ _ Hget), (bind_eq _ _ _ _ _ Hd). done.
Qed.

Lemma post_then_get_witness :
  ∃ n, Routes.get_item (dec n)
         (created second_clock "/outline/" "" 0
            (mkItem "/outline/" "My Outline" [] 0%Z) (init second_clock))
       = Done (ItemJson "/outline/0/" "" [], 200)
           (created second_clock "/outline/" "" 0
              (mkItem "/outline/" "My Outline" [] 0%Z) (init second_clock)).
Proof.
  destruct (post_then_get second_clock (init second_clock) None
              (ItemJson "/outline/0/" "" [])
              (created second_clock "/outline/" "" 0
                 (mkItem "/outline/" "My Outline" [] 0%Z) (init second_clock)))
    as [_ H].
  destruct H as (n & _ & Hget); [vm_compute; reflexivity|].
  exists n. exact Hget.
Defined.

Lemma to_dict_pure (a : addr) (m : OutlineModel) d (m' : OutlineModel) :
  to_dict a m = Done d m' → m' = m.
Proof.
  unfold to_dict, bind, deref. destruct (heap m !! a) as [it|]; [|done].
  destruct (mapM _ _); [|done]. by intros; simplify_eq.
Qed.

(** X14.  What a DELETE removes, a GET no longer finds.  Whenever a
    DELETE on [/outline/<item_path>/] returns, either the URL was in the
    dictionary, the answer has status 204 and a GET on the same path is
    then answered with status 404, or the URL was not in the dictionary,
    the answer has status 404 and nothing has changed.  In a reachable
    state the DELETE returns when the interpreter allows enough nested
    calls, more than the longest URL exceeds this one in length; a tree
    too deep for that ends the request with [RecursionError]. *)
Theorem delete_then_get (clock : nat → Z) (m : OutlineModel) (item_path : string) :
  (∀ fuel resp m',
     Routes.delete_item clock fuel item_path m = Done resp m' →
     (resp = (EmptyBody, 204) ∧
      is_Some (all_items m !! ("/outline/" +:+ item_path +:+ "/")) ∧
      Routes.get_item item_path m' = Done (ErrorJson "Item not found", 404) m') ∨
     (resp = (ErrorJson "Item not found", 404) ∧
      all_items m !! ("/outline/" +:+ item_path +:+ "/") = None ∧
      m' = m)) ∧
  (reachable clock m →
     ∀ fuel, 0 < fuel →
       max_url_length m < String.length ("/outline/" +:+ item_path +:+ "/") + fuel →
       ∃ resp m', Routes.delete_item clock fuel item_path m = Done resp m').
Proof.
  split.
  - intros fuel resp m' H. unfold Routes.delete_item in H.
    apply bind_Done in H as (b & m1 & H & Hresp).
    apply (delete_item_Done clock) in H
      as [(-> & -> & [Hroot|Hnone])
         |(-> & _ & f & a & it & m0 & v & m2 & _ & Ha & _ & _ & _ & _ & ->)];
      unfold ret in Hresp; simplify_eq.
    + by destruct (route_url_not_root item_path).
    + by right.
    + left. split; [done|]. split; [by eexists|].
      unfold Routes.get_item, bind, get_item. simpl.
      by rewrite lookup_delete_eq.
  - intros Hr fuel Hpos Hfuel.
    destruct (delete_item_total clock fuel ("/outline/" +:+ item_path +:+ "/") m
                (max_url_length m)) as (b & m' & H);
      [by apply (reachable_tree_ok clock)|apply max_url_length_bound|done..|].
    unfold Routes.delete_item. rewrite (bind_eq _ _ _ _ _ H).
    destruct b; by eexists _, _.
Qed.

Lemma delete_then_get_witness :
  ∃ resp m', Routes.delete_item second_clock 1 "0" one_child = Done resp m' ∧
             resp = (EmptyBody, 204) ∧
             Routes.get_item "0" m' = Done (ErrorJson "Item not found", 404) m'.
Proof.
  destruct (delete_then_get second_clock one_child "0") as [Hthen Hret].
  destruct (Hret one_child_reachable 1) as (resp & m' & Hrun);
    [lia|vm_compute; lia|].
  exists resp, m'. split; [exact Hrun|].
  destruct (Hthen 1 resp m' Hrun) as [(Hresp & _ & Hget)|(_ & Hnone & _)].
  - split; [exact Hresp|exact Hget].
  - vm_compute in Hnone. discriminate Hnone.
Defined.

(** X15.  A request that is answered with status 404 has changed nothing,
    and a GET never changes anything: for each route, in any state, if the
    status is 404 the state after the call is the state before, and for
    the two GET routes this holds whatever the status. *)
Theorem not_found_has_no_effect (clock : nat → Z) (m : OutlineModel)
    (item_path : string) (json : option (gmap string string))
    (resp : Response) (m' : OutlineModel) :
  (Routes.get_item item_path m = Done resp m' → m' = m) ∧
  (Routes.handle_root clock GET json m = Done resp m' → m' = m) ∧
  (Routes.handle_root clock POST json m = Done resp m' → resp.2 = 404 → m' = m) ∧
  (Routes.create_item clock item_path json m = Done resp m' → resp.2 = 404 → m' = m) ∧
  (Routes.update_item clock item_path json m = Done resp m' → resp.2 = 404 → m' = m) ∧
  (∀ fuel, Routes.delete_item clock fuel item_path m = Done resp m' →
           resp.2 = 404 → m' = m).
Proof.
  assert (∀ u, (do new_item <- create_item clock u (request_text json) ;
                match new_item with
                | None => ret (ErrorJson "Parent not found", 404)
                | Some a => do d <- to_dict a ; ret (jsonify_item d, 201)
                end) m = Done resp m' → resp.2 = 404 → m' = m) as Hcreate.
  { intros u H Hs. apply bind_Done in H as (v & m1 & Hc & H).
    destruct v as [a|].
    - apply bind_Done in H as (d & m2 & _ & H). unfold ret in H. by simplify_eq.
    - unfold ret in H. simplify_eq.
      destruct (all_items m !! u) as [pa|] eqn:Hpa.
      + destruct (heap m !! pa) as [p|] eqn:Hp.
        * by rewrite (create_item_spec _ _ _ _ _ _ Hpa Hp) in Hc.
        * unfold create_item, bind, get_item, deref in Hc. by rewrite Hpa, Hp in Hc.
      + rewrite create_item_missing in Hc by done. by simplify_eq. }
  split; [|split; [|split; [|split; [|split]]]].
  - unfold Routes.get_item, bind, get_item. intros H.
    destruct (all_items m !! _) as [a|]; [|unfold ret in H; by simplify_eq].
    destruct (to_dict a m) as [d m1|] eqn:Hd; [|done].
    apply to_dict_pure in Hd as ->. unfold ret in H. by simplify_eq.
  - unfold Routes.handle_root, bind. intros H.
    destruct (to_dict (root m) m) as [d m1|] eqn:Hd; [|done].
    apply to_dict_pure in Hd as ->. unfold ret in H. by simplify_eq.
  - apply Hcreate.
  - apply Hcreate.
  - unfold Routes.update_item. intros H Hs.
    apply bind_Done in H as (v & m1 & Hc & H). destruct v as [a|].
    + apply bind_Done in H as (d & m2 & _ & H). unfold ret in H. by simplify_eq.
    + unfold ret in H. simplify_eq.
      destruct (all_items m !! ("/outline/" +:+ item_path +:+ "/")) as [a|] eqn:Ha.
      * destruct (heap m !! a) as [it|] eqn:Hit.
        -- by rewrite (update_item_spec _ _ _ _ _ _ Ha Hit) in Hc.
        -- unfold update_item, bind, get_item, modify in Hc. by rewrite Ha, Hit in Hc.
      * rewrite update_item_missing in Hc by done. by simplify_eq.
  - intros fuel H Hs. unfold Routes.delete_item in H.
    apply bind_Done in H as (ok & m1 & Hc & H). destruct ok.
    + unfold ret in H. by simplify_eq.
    + unfold ret in H. simplify_eq.
      by apply (delete_item_Done clock) in Hc
        as [(_ & -> & _)|(? & _)].
Qed.

Lemma not_found_has_no_effect_witness :
  ∃ m', Routes.update_item second_clock "missing" None (init second_clock)
        = Done (ErrorJson "Item not found", 404) m' ∧
        m' = init second_clock.
Proof.
  assert (Routes.update_item second_clock "missing" None (init second_clock)
          = Done (ErrorJson "Item not found", 404) (init second_clock)) as Hrun
    by (vm_compute; reflexivity).
  exists (init second_clock). split; [exact Hrun|].
  destruct (not_found_has_no_effect second_clock (init second_clock) "missing" None
              (ErrorJson "Item not found", 404) (init second_clock))
    as (_ & _ & _ & _ & H & _).
  exact (H Hrun eq_refl).
Defined.

(** X16.  What a PUT writes, a GET returns.  In a reachable state, when
    the PUT on [/outline/<item_path>/] is answered with status 200, the
    body is the node of that URL with the text of the request, and a GET
    on the same path is then answered with status 200 and the same body. *)
Theorem put_then_get (clock : nat → Z) (m : OutlineModel) (item_path : string)
    (json : option (gmap string string)) (body : Body) (m' : OutlineModel) :
  reachable clock m →
  Routes.update_item clock item_path json m = Done (body, 200) m' →
  (∃ cs, body = ItemJson ("/outline/" +:+ item_path +:+ "/") (request_text json) cs) ∧
  Routes.get_item item_path m' = Done (body, 200) m'.
Proof.
  intros Hr H. pose proof (reachable_tree_ok clock _ Hr) as Hok.
  unfold Routes.update_item in H.
  apply bind_Done in H as (v & m1 & Hc & H).
  destruct v as [a|]; [|unfold ret in H; by simplify_eq].
  apply bind_Done in H as (d & m2 & Hd & H). unfold ret in H. simplify_eq.
  pose proof (to_dict_pure _ _ _ _ Hd) as ->.
  destruct (all_items m !! ("/outline/" +:+ item_path +:+ "/")) as [a'|] eqn:Ha;
    last first.
  { rewrite update_item_missing in Hc by done. by simplify_eq. }
  destruct (ok_mapped _ Hok _ _ Ha) as (it & Hit & Hurl).
  rewrite (update_item_spec _ _ _ _ _ _ Ha Hit) in Hc. simplify_eq.
  split.
  - unfold to_dict, bind, deref in Hd. simpl in Hd.
    rewrite list_lookup_insert_eq in Hd by (by eapply lookup_lt_Some).
    simpl in Hd. destruct (mapM _ _) as [us|]; [|done]. simplify_eq.
    exists us. unfold jsonify_item. simpl. by rewrite Hurl.
  - unfold Routes.get_item, bind at 1, get_item. simpl. rewrite Ha.
    by rewrite (bind_eq _ _ _ _ _ Hd).
Qed.

Lemma put_then_get_witness :
  Routes.get_item "0"
    (updated second_clock "/outline/0/" "" 1 (mkItem "/outline/0/" "A" [] 1%Z) one_child)
  = Done (ItemJson "/outline/0/" "" [], 200)
      (updated second_clock "/outline/0/" "" 1 (mkItem "/outline/0/" "A" [] 1%Z) one_child).
Proof.
  apply (put_then_get second_clock one_child "0" None (ItemJson "/outline/0/" "" [])
           _ one_child_reachable).
  vm_compute. reflexivity.
Defined.

(** X17.  What the sweep removes.  In a reachable state
    [cleanup_old_updates cutoff_time] returns, leaves the tree as it is,
    and removes from the dirty set exactly the URLs that lead to an object
    whose [last_modified] is below [cutoff_time]; every other entry, among
    them every entry whose URL leads nowhere, stays. *)
Theorem sweep_is_exact (clock : nat → Z) (m : OutlineModel) (cutoff_time : Z) :
  reachable clock m →
  ∃ m', cleanup_old_updates cutoff_time m = Done tt m' ∧
        heap m' = heap m ∧ all_items m' = all_items m ∧ ticks m' = ticks m ∧
        ∀ u, u ∈ updated_items m' ↔
             u ∈ updated_items m ∧
             ¬ ∃ a it, all_items m !! u = Some a ∧ heap m !! a = Some it ∧
                       (last_modified it < cutoff_time)%Z.
Proof.
  intros Hr. eexists.
  split; [apply cleanup_old_updates_spec; by apply (reachable_tree_ok clock)|].
  simpl. do 3 (split; [done|]).
  intros u. by rewrite elem_of_swept, expired_iff.
Qed.

Lemma sweep_is_exact_witness :
  ∃ m', cleanup_old_updates 0 one_child = Done tt m' ∧
        ("/outline/0/" ∈ updated_items m' ↔
         "/outline/0/" ∈ updated_items one_child ∧
         ¬ ∃ a it, all_items one_child !! "/outline/0/" = Some a ∧
                   heap one_child !! a = Some it ∧ (last_modified it < 0)%Z).
Proof.
  destruct (sweep_is_exact second_clock one_child 0 one_child_reachable)
    as (m' & Hrun & _ & _ & _ & H).
  exists m'. split; [exact Hrun|exact (H "/outline/0/")].
Defined.
